(** * ReverseGeocoder: the coalescing, caching lookup layer of map-picker

    A shallow embedding of the class [ReverseGeocoder] of
    [map-picker/map-picker.js] (the three copies of the class in that file are
    identical), together with the part of the JavaScript run time the class
    talks to: promises, [setTimeout]/[clearTimeout] and the outbound call made
    by [#fetchAddress].

    The event loop is single threaded.  A run is a sequence of tasks: a call
    of [getAddressFromCoordinates], the settlement of an outbound fetch, the
    firing of a timer.  The reactions attached to one settlement ([.then],
    then [.finally]; the rest of [#executeTrailing] after its [await]) run in
    consecutive microtasks before any caller is resumed, so one settlement is
    one step here. *)

From stdpp Require Import gmap strings list fin_maps pretty.
From Stdlib Require Import ZArith Lia.

(** ** Data *)

(** What [#fetchAddress] resolves with: [data.display_name || null]. *)
Definition value : Type := option string.

(** State of a promise. *)
Inductive settlement : Type :=
  | Pending
  | Fulfilled (v : value)
  | Rejected.

(** How an outbound fetch ends: it resolves with a value, or it throws
    (HTTP status, malformed body, abort after 5000 ms). *)
Inductive fetch_result : Type :=
  | Ok (v : value)
  | Failed.

(** What the promise returned by the async function
    [getAddressFromCoordinates] is tied to: [return v] fulfils it with [v],
    [return somePromise] makes it adopt the state of that promise. *)
Inductive handle : Type :=
  | Resolved (v : value)
  | Follows (p : nat).

(** The two callbacks handed to [setTimeout]: the one in [.finally] that
    resets [hasExecutedImmediately], and the debounce one that calls
    [#executeTrailing]. *)
Inductive callback : Type :=
  | SlotRelease
  | Debounce.

Record timer : Type := { tid : nat; due : Z; cb : callback }.

(** What runs when a fetch settles: the [.then]/[.finally] chain of the
    immediate path (with its [cacheKey] and the promise of the chain), or the
    rest of [#executeTrailing] (with its [cacheKey]). *)
Inductive continuation : Type :=
  | AfterImmediate (cacheKey : string) (p : nat)
  | AfterTrailing (cacheKey : string).

Definition contKey (c : continuation) : string :=
  match c with AfterImmediate k _ => k | AfterTrailing k => k end.

Definition isImmediate (c : continuation) : bool :=
  match c with AfterImmediate _ _ => true | AfterTrailing _ => false end.

Definition isSlotRelease (t : timer) : bool :=
  match cb t with SlotRelease => true | Debounce => false end.

(** [this.DEBOUNCE_DELAY = 1000]. *)
Definition DEBOUNCE_DELAY : Z := 1000%Z.

(** Settling a promise: only a pending promise changes state. *)
Definition settle (p : nat) (o : settlement) (ps : list settlement) : list settlement :=
  match ps !! p with
  | Some Pending => <[p := o]> ps
  | _ => ps
  end.

(** [resolvers.forEach(resolve => resolve(v))]. *)
Definition resolveAll (rs : list nat) (v : value) (ps : list settlement) : list settlement :=
  foldl (fun acc p => settle p (Fulfilled v) acc) ps rs.

Section Geocoder.

(** JavaScript numbers and their [ToString], as used by the template literal
    that builds the cache key. *)
Context {num : Type} (toString : num -> string).

(** [`${lat},${lng}`]. *)
Definition cacheKeyOf (lat lng : num) : string :=
  toString lat +:+ "," +:+ toString lng.

(** One call of [#fetchAddress]. *)
Record fetch : Type := { fid : nat; flat : num; flng : num; fcont : continuation }.

Record state : Type := {
  (* the fields of the ReverseGeocoder object *)
  cache : gmap string value;
  pendingRequests : gmap string nat;
  hasExecutedImmediately : bool;
  pendingResolvers : list nat;
  lastArgs : option (num * num);
  debounceTimer : option nat;
  (* the run time *)
  promises : list settlement;
  timers : list timer;
  timerSeq : nat;
  fetchLog : list fetch;
  inflight : list fetch;
  now : Z
}.

(** [constructor()]. *)
Definition init : state :=
  {| cache := ∅; pendingRequests := ∅; hasExecutedImmediately := false;
     pendingResolvers := []; lastArgs := None; debounceTimer := None;
     promises := []; timers := []; timerSeq := 0;
     fetchLog := []; inflight := []; now := 0%Z |}.

(** *** Field updates *)

Definition set_cache (f : gmap string value -> gmap string value) (s : state) : state :=
  {| cache := f (cache s); pendingRequests := pendingRequests s;
     hasExecutedImmediately := hasExecutedImmediately s;
     pendingResolvers := pendingResolvers s; lastArgs := lastArgs s;
     debounceTimer := debounceTimer s; promises := promises s;
     timers := timers s; timerSeq := timerSeq s; fetchLog := fetchLog s;
     inflight := inflight s; now := now s |}.

Definition set_pendingRequests (f : gmap string nat -> gmap string nat) (s : state) : state :=
  {| cache := cache s; pendingRequests := f (pendingRequests s);
     hasExecutedImmediately := hasExecutedImmediately s;
     pendingResolvers := pendingResolvers s; lastArgs := lastArgs s;
     debounceTimer := debounceTimer s; promises := promises s;
     timers := timers s; timerSeq := timerSeq s; fetchLog := fetchLog s;
     inflight := inflight s; now := now s |}.

Definition set_hasExecutedImmediately (b : bool) (s : state) : state :=
  {| cache := cache s; pendingRequests := pendingRequests s;
     hasExecutedImmediately := b;
     pendingResolvers := pendingResolvers s; lastArgs := lastArgs s;
     debounceTimer := debounceTimer s; promises := promises s;
     timers := timers s; timerSeq := timerSeq s; fetchLog := fetchLog s;
     inflight := inflight s; now := now s |}.

Definition set_pendingResolvers (rs : list nat) (s : state) : state :=
  {| cache := cache s; pendingRequests := pendingRequests s;
     hasExecutedImmediately := hasExecutedImmediately s;
     pendingResolvers := rs; lastArgs := lastArgs s;
     debounceTimer := debounceTimer s; promises := promises s;
     timers := timers s; timerSeq := timerSeq s; fetchLog := fetchLog s;
     inflight := inflight s; now := now s |}.

Definition set_lastArgs (a : option (num * num)) (s : state) : state :=
  {| cache := cache s; pendingRequests := pendingRequests s;
     hasExecutedImmediately := hasExecutedImmediately s;
     pendingResolvers := pendingResolvers s; lastArgs := a;
     debounceTimer := debounceTimer s; promises := promises s;
     timers := timers s; timerSeq := timerSeq s; fetchLog := fetchLog s;
     inflight := inflight s; now := now s |}.

Definition set_debounceTimer (t : option nat) (s : state) : state :=
  {| cache := cache s; pendingRequests := pendingRequests s;
     hasExecutedImmediately := hasExecutedImmediately s;
     pendingResolvers := pendingResolvers s; lastArgs := lastArgs s;
     debounceTimer := t; promises := promises s;
     timers := timers s; timerSeq := timerSeq s; fetchLog := fetchLog s;
     inflight := inflight s; now := now s |}.

Definition set_promises (f : list settlement -> list settlement) (s : state) : state :=
  {| cache := cache s; pendingRequests := pendingRequests s;
     hasExecutedImmediately := hasExecutedImmediately s;
     pendingResolvers := pendingResolvers s; lastArgs := lastArgs s;
     debounceTimer := debounceTimer s; promises := f (promises s);
     timers := timers s; timerSeq := timerSeq s; fetchLog := fetchLog s;
     inflight := inflight s; now := now s |}.

Definition set_timers (f : list timer -> list timer) (s : state) : state :=
  {| cache := cache s; pendingRequests := pendingRequests s;
     hasExecutedImmediately := hasExecutedImmediately s;
     pendingResolvers := pendingResolvers s; lastArgs := lastArgs s;
     debounceTimer := debounceTimer s; promises := promises s;
     timers := f (timers s); timerSeq := timerSeq s; fetchLog := fetchLog s;
     inflight := inflight s; now := now s |}.

Definition set_timerSeq (n : nat) (s : state) : state :=
  {| cache := cache s; pendingRequests := pendingRequests s;
     hasExecutedImmediately := hasExecutedImmediately s;
     pendingResolvers := pendingResolvers s; lastArgs := lastArgs s;
     debounceTimer := debounceTimer s; promises := promises s;
     timers := timers s; timerSeq := n; fetchLog := fetchLog s;
     inflight := inflight s; now := now s |}.

Definition set_fetchLog (f : list fetch -> list fetch) (s : state) : state :=
  {| cache := cache s; pendingRequests := pendingRequests s;
     hasExecutedImmediately := hasExecutedImmediately s;
     pendingResolvers := pendingResolvers s; lastArgs := lastArgs s;
     debounceTimer := debounceTimer s; promises := promises s;
     timers := timers s; timerSeq := timerSeq s; fetchLog := f (fetchLog s);
     inflight := inflight s; now := now s |}.

Definition set_inflight (f : list fetch -> list fetch) (s : state) : state :=
  {| cache := cache s; pendingRequests := pendingRequests s;
     hasExecutedImmediately := hasExecutedImmediately s;
     pendingResolvers := pendingResolvers s; lastArgs := lastArgs s;
     debounceTimer := debounceTimer s; promises := promises s;
     timers := timers s; timerSeq := timerSeq s; fetchLog := fetchLog s;
     inflight := f (inflight s); now := now s |}.

Definition set_now (t : Z) (s : state) : state :=
  {| cache := cache s; pendingRequests := pendingRequests s;
     hasExecutedImmediately := hasExecutedImmediately s;
     pendingResolvers := pendingResolvers s; lastArgs := lastArgs s;
     debounceTimer := debounceTimer s; promises := promises s;
     timers := timers s; timerSeq := timerSeq s; fetchLog := fetchLog s;
     inflight := inflight s; now := t |}.

(** ** The run time *)

(** [setTimeout(callback, delay)]: a new pending timer; its id is returned. *)
Definition setTimeout (c : callback) (delay : Z) (s : state) : state * nat :=
  let t := {| tid := timerSeq s; due := (now s + delay)%Z; cb := c |} in
  (set_timerSeq (S (timerSeq s)) (set_timers (fun ts => ts ++ [t]) s), timerSeq s).

(** [clearTimeout(id)]: [null] and the id of a timer that has fired are
    ignored. *)
Definition clearTimeout (t : option nat) (s : state) : state :=
  match t with
  | None => s
  | Some i => set_timers (filter (fun x => tid x ≠ i)) s
  end.

(** [#fetchAddress(lat, lng)]: the request leaves at once; the fetch stays in
    flight until the environment settles it. *)
Definition fetchAddress (lat lng : num) (k : continuation) (s : state) : state :=
  let f := {| fid := length (fetchLog s); flat := lat; flng := lng; fcont := k |} in
  set_inflight (fun fs => fs ++ [f]) (set_fetchLog (fun fs => fs ++ [f]) s).

(** ** The class *)

(** [#executeTrailing()], up to its [await]. *)
Definition executeTrailing (s : state) : state :=
  match lastArgs s with
  | None => s
  | Some (lat, lng) => fetchAddress lat lng (AfterTrailing (cacheKeyOf lat lng)) s
  end.

(** [#executeTrailing()], from the [await] on: [try] rest or [catch], then
    [finally]. *)
Definition trailingSettled (cacheKey : string) (r : fetch_result) (s : state) : state :=
  let s1 :=
    match r with
    | Ok result =>
        set_promises (resolveAll (pendingResolvers s) result)
          (set_cache (insert cacheKey result) s)
    | Failed =>
        set_promises (resolveAll (pendingResolvers s) None) s
    end in
  set_lastArgs None
    (set_pendingRequests (delete cacheKey)
       (set_pendingResolvers [] s1)).

(** The [.then(result => ...)] and [.finally(() => setTimeout(...))] of the
    immediate path; [p] is [immediatePromise].  A rejection skips [.then]. *)
Definition immediateSettled (cacheKey : string) (p : nat) (r : fetch_result) (s : state) : state :=
  let s1 :=
    match r with
    | Ok result =>
        set_promises (settle p (Fulfilled result))
          (set_pendingResolvers []
             (set_promises (resolveAll (pendingResolvers s) result)
                (set_pendingRequests (delete cacheKey)
                   (set_cache (insert cacheKey result) s))))
    | Failed => set_promises (settle p Rejected) s
    end in
  fst (setTimeout SlotRelease DEBOUNCE_DELAY s1).

(** The callback armed in [.finally]. *)
Definition slotReleaseFired (s : state) : state :=
  let s1 := set_hasExecutedImmediately false s in
  if bool_decide (0 < length (pendingResolvers s1)) && bool_decide (is_Some (lastArgs s1))
  then executeTrailing s1
  else s1.

(** The callback of [this.debounceTimer]. *)
Definition debounceFired (s : state) : state := executeTrailing s.

(** [async getAddressFromCoordinates(lat, lng)]. *)
Definition getAddressFromCoordinates (lat lng : num) (s : state) : state * handle :=
  let cacheKey := cacheKeyOf lat lng in
  match cache s !! cacheKey with
  | Some v => (s, Resolved v)
  | None =>
    match pendingRequests s !! cacheKey with
    | Some p => (s, Follows p)
    | None =>
      if negb (hasExecutedImmediately s) then
        let s1 := set_hasExecutedImmediately true s in
        let immediatePromise := length (promises s1) in
        let s2 := fetchAddress lat lng (AfterImmediate cacheKey immediatePromise) s1 in
        let s3 := set_promises (fun ps => ps ++ [Pending]) s2 in
        (set_pendingRequests (insert cacheKey immediatePromise) s3, Follows immediatePromise)
      else
        let s1 := set_lastArgs (Some (lat, lng)) s in
        let trailingPromise := length (promises s1) in
        let s2 := set_pendingResolvers (pendingResolvers s1 ++ [trailingPromise])
                    (set_promises (fun ps => ps ++ [Pending]) s1) in
        let s3 := clearTimeout (debounceTimer s2) s2 in
        let '(s4, t) := setTimeout Debounce DEBOUNCE_DELAY s3 in
        (set_debounceTimer (Some t) s4, Follows trailingPromise)
    end
  end.

(** What a caller holding [h] observes in state [s]. *)
Definition outcome (s : state) (h : handle) : settlement :=
  match h with
  | Resolved v => Fulfilled v
  | Follows p => default Pending (promises s !! p)
  end.

(** ** Tasks of the event loop *)

(** A call, the settlement of a fetch, the firing of a pending timer, the
    clock moving on.  Here a pending timer may fire at any moment and in any
    order, whatever its due time: every run of the object under a real clock
    (see [run] below, where timers fire when they are due) is among these. *)
Inductive event : Type :=
  | Call (lat lng : num)
  | FetchSettles (f : nat) (r : fetch_result)
  | TimerFires (t : nat)
  | Clock (t : Z).

Definition findFetch (f : nat) (fs : list fetch) : option fetch :=
  list_find (fun x => fid x = f) fs ≫= (fun '(_, x) => Some x).

Definition findTimer (t : nat) (ts : list timer) : option timer :=
  list_find (fun x => tid x = t) ts ≫= (fun '(_, x) => Some x).

(** The fetch [f] settles with [r]; nothing happens if [f] is not in
    flight. *)
Definition fetchSettles (f : nat) (r : fetch_result) (s : state) : state :=
  match findFetch f (inflight s) with
  | None => s
  | Some ft =>
      let s1 := set_inflight (filter (fun x => fid x ≠ f)) s in
      match fcont ft with
      | AfterImmediate k p => immediateSettled k p r s1
      | AfterTrailing k => trailingSettled k r s1
      end
  end.

(** The pending timer [t] fires; nothing happens if [t] is not pending. *)
Definition timerFires (t : nat) (s : state) : state :=
  match findTimer t (timers s) with
  | None => s
  | Some tm =>
      let s1 := set_timers (filter (fun x => tid x ≠ t)) s in
      match cb tm with
      | SlotRelease => slotReleaseFired s1
      | Debounce => debounceFired s1
      end
  end.

Definition step (s : state) (e : event) : state :=
  match e with
  | Call lat lng => fst (getAddressFromCoordinates lat lng s)
  | FetchSettles f r => fetchSettles f r s
  | TimerFires t => timerFires t s
  | Clock t => set_now t s
  end.

Definition exec (es : list event) (s : state) : state := foldl step s es.

(** States the object can be in. *)
Definition reachable (s : state) : Prop := ∃ es, s = exec es init.

(** ** Runs under a clock *)

(** The pending timer that fires next when the clock moves to [t]: the
    earliest due one, the one created first among equals. *)
Fixpoint earliest (ts : list timer) : option timer :=
  match ts with
  | [] => None
  | x :: r =>
      match earliest r with
      | Some y => if bool_decide (due y < due x)%Z then Some y else Some x
      | None => Some x
      end
  end.

Definition nextDue (t : Z) (s : state) : option timer :=
  match earliest (timers s) with
  | Some x => if bool_decide (due x ≤ t)%Z then Some x else None
  | None => None
  end.

(** Let the clock reach [t], firing on the way every timer that comes due. *)
Fixpoint advance (fuel : nat) (t : Z) (s : state) : state :=
  match fuel with
  | O => set_now t s
  | S n =>
      match nextDue t s with
      | Some x => advance n t (timerFires (tid x) (set_now (due x) s))
      | None => set_now t s
      end
  end.

(** What the environment does, at a time in milliseconds. *)
Inductive input : Type :=
  | Lookup (lat lng : num)
  | Response (f : nat) (r : fetch_result)
  | Idle.

Definition timedStep (sh : state * list handle) (ti : Z * input) : state * list handle :=
  let '(s, hs) := sh in
  let '(t, i) := ti in
  let s1 := advance (length (timers s)) t s in
  match i with
  | Lookup lat lng =>
      let '(s2, h) := getAddressFromCoordinates lat lng s1 in (s2, hs ++ [h])
  | Response f r => (fetchSettles f r s1, hs)
  | Idle => (s1, hs)
  end.

(** A timed run from the fresh object: the final state and the handles
    returned to the callers, in call order. *)
Definition run (tis : list (Z * input)) : state * list handle :=
  foldl timedStep (init, []) tis.

(** *** Observations *)

Definition fetchedKeys (s : state) : list string :=
  map (fun f => cacheKeyOf (flat f) (flng f)) (fetchLog s).

Definition immediateInFlight (s : state) : nat :=
  length (filter (fun f => isImmediate (fcont f) = true) (inflight s)).

Definition slotTimersPending (s : state) : nat :=
  length (filter (fun t => isSlotRelease t = true) (timers s)).

(** The fetches started by the steps that lead from [s] to [s']. *)
Definition fetchesSince (s s' : state) : list fetch :=
  drop (length (fetchLog s)) (fetchLog s').

(** What the settlement of a fetch resolves the queued resolvers with, if it
    resolves them at all: the immediate path resolves them in [.then] only,
    [#executeTrailing] resolves them in [try] and in [catch]. *)
Definition flushValue (c : continuation) (r : fetch_result) : option value :=
  match c, r with
  | AfterImmediate _ _, Ok v => Some v
  | AfterImmediate _ _, Failed => None
  | AfterTrailing _, Ok v => Some v
  | AfterTrailing _, Failed => Some None
  end.

(** How the promise of the immediate chain settles. *)
Definition chainOutcome (r : fetch_result) : settlement :=
  match r with Ok v => Fulfilled v | Failed => Rejected end.


(** No fetch whose continuation holds the cache key [k] settles during the
    steps [es] taken from [s]. *)
Fixpoint quietFor (k : string) (es : list event) (s : state) : Prop :=
  match es with
  | [] => True
  | e :: es' =>
      match e with
      | FetchSettles n _ =>
          match findFetch n (inflight s) with
          | Some f => contKey (fcont f) ≠ k
          | None => True
          end
      | _ => True
      end ∧ quietFor k es' (step s e)
  end.

(** The event [e] is not the settlement of fetch [n]. *)
Definition keepsInFlight (n : nat) (e : event) : Prop :=
  match e with
  | FetchSettles m _ => m ≠ n
  | _ => True
  end.

(** Two promises made on the queue path that go together: both still queued,
    or both fulfilled with the same value. *)
Definition together (w1 w2 : nat) (s : state) : Prop :=
  (w1 ∈ pendingResolvers s ∧ w2 ∈ pendingResolvers s) ∨
  ∃ v : value, promises s !! w1 = Some (Fulfilled v) ∧
               promises s !! w2 = Some (Fulfilled v).

(** The two states a promise made on the queue path can be in: still queued
    and pending, or fulfilled. *)
Definition queuedOrFulfilled (p : nat) (s : state) : Prop :=
  (promises s !! p = Some Pending ∧ p ∈ pendingResolvers s) ∨
  ∃ v : value, promises s !! p = Some (Fulfilled v).

(** *** What holds in every reachable state *)

Record consistent (s : state) : Prop := {
  (* a queued resolver belongs to a promise that is still pending *)
  queued_pending : ∀ p, p ∈ pendingResolvers s → promises s !! p = Some Pending;
  (* the promise of an immediate fetch in flight is pending and not queued *)
  immediate_pending : ∀ f k p, f ∈ inflight s → fcont f = AfterImmediate k p →
      promises s !! p = Some Pending ∧ p ∉ pendingResolvers s;
  (* one immediate fetch, or one slot-release timer, or neither *)
  one_slot : immediateInFlight s + slotTimersPending s ≤ 1;
  free_slot : hasExecutedImmediately s = false →
      immediateInFlight s = 0 ∧ slotTimersPending s = 0;
  (* a key with a pending request is not cached *)
  pending_uncached : ∀ k, is_Some (pendingRequests s !! k) → cache s !! k = None;
  (* the continuation of a fetch holds the cache key of its own arguments *)
  key_of_fetch : ∀ f, f ∈ inflight s → contKey (fcont f) = cacheKeyOf (flat f) (flng f);
  (* a fetch in flight is one of the fetches of the log *)
  fid_logged : ∀ f, f ∈ inflight s → fid f < length (fetchLog s)
}.

End Geocoder.

(** ** More of what holds in every reachable state *)

Definition isDebounce (t : timer) : bool :=
  match cb t with Debounce => true | SlotRelease => false end.

Section Bookkeeping.
Context {num : Type}.

(** Timer ids and fetch numbers are handed out once, and the only debounce
    timer that can be pending is the one [this.debounceTimer] names. *)
Record identified (s : state (num := num)) : Prop := {
  tids_distinct : NoDup (tid <$> timers s);
  tids_issued : ∀ t, t ∈ timers s → tid t < timerSeq s;
  fids_distinct : NoDup (fid <$> inflight s);
  debounce_recorded : ∀ t, t ∈ timers s → cb t = Debounce →
      debounceTimer s = Some (tid t)
}.

(** Queued callers are looked after: while resolvers are queued, [lastArgs]
    is set, and the debounce timer is pending or a deferred fetch is in
    flight. *)
Definition attended (s : state (num := num)) : Prop :=
  pendingResolvers s ≠ [] →
  is_Some (lastArgs s) ∧
  ((∃ t, t ∈ timers s ∧ cb t = Debounce) ∨
   (∃ f, f ∈ inflight s ∧ isImmediate (fcont f) = false)).

(** The slot is taken and stays so until the clock reads [T]: the flag is
    set, no immediate fetch is in flight, and no pending slot-release timer is
    due before [T]. *)
Definition slotHeldUntil (T : Z) (s : state (num := num)) : Prop :=
  hasExecutedImmediately s = true ∧
  immediateInFlight s = 0 ∧
  ∀ t, t ∈ timers s → cb t = SlotRelease → (T ≤ due t)%Z.

(** From [s] to [s'] the log of fetches has only grown, by deferred fetches. *)
Definition onlyDeferredSince (s s' : state (num := num)) : Prop :=
  ∃ ext, fetchLog s' = fetchLog s ++ ext ∧
         Forall (λ g, isImmediate (fcont g) = false) ext.

End Bookkeeping.

Section Clocked.
Context {num : Type} (toString : num → string).

(** A timed run continued from a state. *)
Definition runFrom (sh : state (num := num) * list handle) (tis : list (Z * input)) :
    state * list handle :=
  foldl (timedStep toString) sh tis.

End Clocked.

(** ** [#fetchAddress]: from the HTTP exchange to the result *)

(** What [await response.json()] gives: a rejection (the body is not JSON),
    the value [null] (reading [.display_name] of it throws), or any other
    value, of which only [display_name] is read: missing, or a string (as
    Nominatim sends it). *)
Inductive jsonBody : Type :=
  | NotJson
  | JsonNull
  | JsonValue (display_name : option string).

(** How the request ends: [fetch] rejects (no connection), the
    [AbortController] aborts it after 5000 ms, or a response arrives. *)
Inductive exchange : Type :=
  | NetworkError
  | Aborted
  | Answered (status : nat) (body : jsonBody).

(** [response.ok]: the status is in 200..299. *)
Definition responseOk (status : nat) : bool :=
  bool_decide (200 ≤ status ≤ 299).

(** Truthiness of a string: only the empty string is falsy. *)
Definition truthy (x : string) : bool := negb (String.eqb x "").

(** [v || null] for a string or [null]. *)
Definition orNull (v : value) : value :=
  match v with
  | Some x => if truthy x then Some x else None
  | None => None
  end.

(** The body of [#fetchAddress]: [if (!response.ok) throw ...],
    [return data.display_name || null], and [catch (error) { ...; throw error }]. *)
Definition fetchAddressResult (x : exchange) : fetch_result :=
  match x with
  | NetworkError => Failed
  | Aborted => Failed
  | Answered status body =>
      if negb (responseOk status) then Failed
      else match body with
           | NotJson => Failed
           | JsonNull => Failed
           | JsonValue display_name => Ok (orNull display_name)
           end
  end.

(** No promise of the store is fulfilled with the empty string. *)
Definition noEmpty (ps : list settlement) : Prop :=
  ∀ q, ps !! q ≠ Some (Fulfilled (Some "")).

Section Served.
Context {num : Type}.

(** The tasks of the event loop when the fetches are those of
    [#fetchAddress]. *)
Inductive served : Type :=
  | SCall (lat lng : num)
  | SExchange (f : nat) (x : exchange)
  | STimer (t : nat)
  | SClock (t : Z).

Definition servedEvent (e : served) : event (num := num) :=
  match e with
  | SCall lat lng => Call lat lng
  | SExchange f x => FetchSettles f (fetchAddressResult x)
  | STimer t => TimerFires t
  | SClock t => Clock t
  end.

End Served.

(** ** [#setAriaBusyWhenLoading]: the busy indicator of the tile layer *)

(** The two events of the tile layer the element listens to. *)
Inductive tileEvent : Type :=
  | TilesLoading
  | TilesLoad.

(** The closure variable [loadingTiles] and the element's [ariaBusy]
    ([true], or [null]: [None]). *)
Record busy : Type := { loadingTiles : Z; ariaBusy : option bool }.

(** [connectedCallback] sets [ariaBusy = true]; [loadingTiles] starts at 0. *)
Definition busyInit : busy := {| loadingTiles := 0; ariaBusy := Some true |}.

Definition onTileEvent (b : busy) (e : tileEvent) : busy :=
  match e with
  | TilesLoading =>
      {| loadingTiles := loadingTiles b + 1; ariaBusy := Some true |}
  | TilesLoad =>
      let n := (loadingTiles b - 1)%Z in
      {| loadingTiles := n;
         ariaBusy := if (n =? 0)%Z then None else ariaBusy b |}
  end.

(** ['loading'] events minus ['load'] events. *)
Fixpoint outstanding (es : list tileEvent) : Z :=
  match es with
  | [] => 0
  | TilesLoading :: r => (outstanding r + 1)%Z
  | TilesLoad :: r => (outstanding r - 1)%Z
  end.

(** Every ['load'] answers an earlier ['loading']: [n] loads are outstanding
    before [es]. *)
Fixpoint wellNested (n : Z) (es : list tileEvent) : Prop :=
  match es with
  | [] => True
  | TilesLoading :: r => wellNested (n + 1) r
  | TilesLoad :: r => (0 < n)%Z ∧ wellNested (n - 1) r
  end.

(** ** [setupKeyboardControls] *)

(** What the handler reads of a [keydown] event: [e.code], [e.metaKey], and
    whether [e.target] matches ['[role=button]'] and ['a']. *)
Record keydown : Type :=
  { code : string; metaKey : bool; onButton : bool; onLink : bool }.

(** What the handler does: to the event, to its target, to the map, and
    through the three callbacks. *)
Inductive keyAction : Type :=
  | PreventDefault
  | ClickTarget
  | SetMarkerAtCenter
  | ConfirmLocation
  | ZoomOut
  | ZoomIn
  | PanBy (x y : Z)
  | SetZoom (z : Z)
  | ResetMap
  | Alert (message : string).

(** The line feed of the help text. *)
Definition newline : string := String (Ascii.ascii_of_nat 10) EmptyString.

Definition shortcutsHelp : string :=
  "Map Keyboard Shortcuts:" +:+ newline +:+ newline +:+
  "Space: Place marker at map center" +:+ newline +:+
  "Enter: Confirm location" +:+ newline +:+
  "Plus/Minus: Zoom in/out" +:+ newline +:+
  "Arrow keys: Pan map" +:+ newline +:+
  "R: Reset map" +:+ newline +:+
  "Escape: Close popover".

(** The object [keyHandlers], in source order. *)
Definition keyHandlers : list (string * (keydown → list keyAction)) :=
  [ ("Space", λ e, if onButton e then [ClickTarget]
                   else [PreventDefault; SetMarkerAtCenter]);
    ("Enter", λ e, if onButton e then []
                   else if onLink e then []
                   else [PreventDefault; ConfirmLocation]);
    ("Minus", λ _, [PreventDefault; ZoomOut]);
    ("Equal", λ _, [PreventDefault; ZoomIn]);
    ("ArrowUp", λ _, [PreventDefault; PanBy 0 (-50)]);
    ("ArrowDown", λ _, [PreventDefault; PanBy 0 50]);
    ("ArrowLeft", λ _, [PreventDefault; PanBy (-50) 0]);
    ("ArrowRight", λ _, [PreventDefault; PanBy 50 0]);
    ("End", λ _, [PreventDefault; SetZoom 4]);
    ("KeyR", λ _, [PreventDefault; ResetMap]);
    ("KeyH", λ _, [PreventDefault; Alert shortcutsHelp]) ].

(** [keyHandlers[e.code]], for the codes a keyboard event can have (none of
    them names a property an object inherits). *)
Fixpoint handlerOf (c : string) (hs : list (string * (keydown → list keyAction))) :
    option (keydown → list keyAction) :=
  match hs with
  | [] => None
  | (k, h) :: r => if String.eqb k c then Some h else handlerOf c r
  end.

(** The [keydown] listener. *)
Definition onKeydown (e : keydown) : list keyAction :=
  if metaKey e then []
  else match handlerOf (code e) keyHandlers with
       | Some handler => handler e
       | None => []
       end.

(** The pan a list of actions adds up to. *)
Fixpoint netPan (l : list keyAction) : Z * Z :=
  match l with
  | [] => (0, 0)%Z
  | PanBy x y :: r => let '(a, b) := netPan r in ((x + a)%Z, (y + b)%Z)
  | _ :: r => netPan r
  end.

(** ** The setter [markerCoordinates] *)




Section Setter.
Context {num : Type}.




End Setter.

(** ** The element [MapPicker]: marker, address and events *)

(** What a popup shows: the template [#createPopup] picks, with what it is
    given. *)
Inductive popupContent : Type :=
  | LoadingPopup
  | AddressPopup (address : string)
  | CoordinatesPopup (lat lng : string).

(** A [MarkerDataEvent] dispatched on the host. *)
Record markerEvent : Type :=
  { evName : string; evLat : string; evLng : string; evAddress : value }.

Section Picker.
(** JavaScript numbers with [ToString] (for the cache key) and
    [toFixed(6)]. *)
Context {num : Type} (toString : num → string) (toFixed6 : num → string).

(** [#createPopup({ loading, address, coordinates })]: [None] is the
    [TypeError] of reading [coordinates.lat] when [coordinates] is [null]. *)
Definition createPopup (loading : bool) (address : value)
    (coordinates : option (num * num)) : option popupContent :=
  if loading then Some LoadingPopup
  else if match address with Some a => truthy a | None => false end
       then Some (AddressPopup (default "" address))
       else match coordinates with
            | Some (lat, lng) => Some (CoordinatesPopup (toFixed6 lat) (toFixed6 lng))
            | None => None
            end.

(** A Leaflet marker: where it is, and the content of its popup. *)
Record markerObj : Type := { position : num * num; popup : popupContent }.

(** The fields of the element that the marker code uses, with the events it
    has dispatched and the alerts it has shown. *)
Record picker : Type := {
  marker : option markerObj;
  address : value;
  dispatched : list markerEvent;
  alerts : list string
}.

(** [constructor()]: no marker, no address. *)
Definition pickerInit : picker :=
  {| marker := None; address := None; dispatched := []; alerts := [] |}.

(** [setMarker(lat, lng)] up to the call of [getAddressFromCoordinates]: the
    old marker is removed, the new one shows the loading popup. *)
Definition placeMarker (lat lng : num) (u : picker) : picker :=
  {| marker := Some {| position := (lat, lng); popup := LoadingPopup |};
     address := address u; dispatched := dispatched u; alerts := alerts u |}.

(** [setMarker(lat, lng)] after its [await], with the value [v] the lookup
    was fulfilled with: [this.address = address || null], then
    [this.marker.setPopupContent(...)], which throws when [this.marker] is
    [null] by then. *)
Definition resumeSetMarker (lat lng : num) (v : value) (u : picker) : picker :=
  match marker u, createPopup false v (Some (lat, lng)) with
  | Some m, Some content =>
      {| marker := Some {| position := position m; popup := content |};
         address := orNull v; dispatched := dispatched u; alerts := alerts u |}
  | _, _ =>
      {| marker := marker u; address := orNull v;
         dispatched := dispatched u; alerts := alerts u |}
  end.

(** [#dispatchEventWithMarkerData(evName)]. *)
Definition dispatchEventWithMarkerData (name : string) (u : picker) : picker :=
  match marker u with
  | None => u
  | Some m =>
      {| marker := marker u; address := address u;
         dispatched := dispatched u ++
           [{| evName := name; evLat := toFixed6 (fst (position m));
               evLng := toFixed6 (snd (position m));
               evAddress := orNull (address u) |}];
         alerts := alerts u |}
  end.

(** [handleConfirm(e)]. *)
Definition handleConfirm (u : picker) : picker :=
  match marker u with
  | None =>
      {| marker := marker u; address := address u; dispatched := dispatched u;
         alerts := alerts u ++ ["Please select a location on the map first."] |}
  | Some _ => dispatchEventWithMarkerData "map-picker-confirm" u
  end.

(** [resetMap()], as far as marker and address go. *)
Definition resetMap (u : picker) : picker :=
  {| marker := None; address := None; dispatched := dispatched u; alerts := alerts u |}.

(** The element together with the geocoder of the module and the calls of
    [setMarker] suspended at their [await]: the promise each waits for and
    its own [lat], [lng], in call order. *)
Record world : Type := {
  geo : state (num := num);
  ui : picker;
  awaiting : list (nat * (num * num))
}.

Definition worldInit : world :=
  {| geo := init; ui := pickerInit; awaiting := [] |}.

(** [setMarker] up to its [await]: returns the handle it awaits. *)
Definition setMarkerCall (lat lng : num) (w : world) : world * handle :=
  let '(g, h) := getAddressFromCoordinates toString lat lng (geo w) in
  ({| geo := g; ui := placeMarker lat lng (ui w); awaiting := awaiting w |}, h).

(** The [await] at the end of the task: a handle that is already fulfilled
    resumes the call in a microtask, a rejected one ends it (the [await]
    throws), a pending one leaves it suspended. *)
Definition awaitHandle (lat lng : num) (h : handle) (w : world) : world :=
  match outcome (geo w) h with
  | Fulfilled v =>
      {| geo := geo w; ui := resumeSetMarker lat lng v (ui w); awaiting := awaiting w |}
  | Rejected => w
  | Pending =>
      match h with
      | Follows p =>
          {| geo := geo w; ui := ui w; awaiting := awaiting w ++ [(p, (lat, lng))] |}
      | Resolved _ => w
      end
  end.

(** Resuming, in order, the suspended calls of [l] whose promise has
    settled. *)
Definition resumeAll (g : state (num := num)) (l : list (nat * (num * num)))
    (u : picker) : picker :=
  foldl (λ acc '(p, (lat, lng)),
           match promises g !! p with
           | Some (Fulfilled v) => resumeSetMarker lat lng v acc
           | _ => acc
           end) u l.

Definition stillPending (g : state (num := num)) (a : nat * (num * num)) : bool :=
  match promises g !! fst a with Some Pending => true | _ => false end.

Definition wasQueued (g : state (num := num)) (a : nat * (num * num)) : bool :=
  bool_decide (fst a ∈ pendingResolvers g).

(** What happens to the element. *)
Inductive task : Type :=
  | MapClicked (lat lng : num)
  | MarkerPlaced (lat lng : num)
  | ConfirmClicked
  | ResetRequested
  | Geocoder (e : event (num := num)).

(** One task.  A click on the map calls [setMarker] and then, in the same
    task, dispatches ['map-picker-marker-set']; the Space key and the setter
    [markerCoordinates] call [setMarker] only.  After a step of the geocoder
    the suspended calls whose promise settled are resumed: the queued callers
    first (they are resolved inside [.then], or by [#executeTrailing]), in
    queue order, then those that wait for the promise of the immediate
    chain. *)
Definition perform (w : world) (t : task) : world :=
  match t with
  | MapClicked lat lng =>
      let '(w1, h) := setMarkerCall lat lng w in
      let w2 := {| geo := geo w1;
                   ui := dispatchEventWithMarkerData "map-picker-marker-set" (ui w1);
                   awaiting := awaiting w1 |} in
      awaitHandle lat lng h w2
  | MarkerPlaced lat lng =>
      let '(w1, h) := setMarkerCall lat lng w in
      awaitHandle lat lng h w1
  | ConfirmClicked =>
      {| geo := geo w; ui := handleConfirm (ui w); awaiting := awaiting w |}
  | ResetRequested =>
      {| geo := geo w; ui := resetMap (ui w); awaiting := awaiting w |}
  | Geocoder e =>
      let g := step toString (geo w) e in
      let first := filter (λ a, wasQueued (geo w) a = true) (awaiting w) in
      let rest := filter (λ a, wasQueued (geo w) a = false) (awaiting w) in
      {| geo := g;
         ui := resumeAll g rest (resumeAll g first (ui w));
         awaiting := filter (λ a, stillPending g a = true) (awaiting w) |}
  end.

Definition performAll (ts : list task) (w : world) : world := foldl perform w ts.

End Picker.

(** ** A concrete instance: integer coordinates printed in decimal *)

Definition showZ (z : Z) : string := pretty z.

(** The observable part of a timed run: what each caller sees, the cache keys
    of the fetches made so far (in order), and the fetches still in flight. *)
Definition observe (r : state (num := Z) * list handle) :
    list settlement * list string * list nat :=
  (map (outcome (fst r)) (snd r), fetchedKeys showZ (fst r), map fid (inflight (fst r))).

(** Three places, by integer coordinates: their cache keys are ["39,-98"],
    ["40,-74"] and ["51,0"]. *)
Definition A : Z * Z := (39, -98)%Z.
Definition B : Z * Z := (40, -74)%Z.
Definition C : Z * Z := (51, 0)%Z.

Definition lookup (k : Z * Z) : input (num := Z) := Lookup (fst k) (snd k).
Definition call (k : Z * Z) : event (num := Z) := Call (fst k) (snd k).
Definition keyOf (k : Z * Z) : string := cacheKeyOf showZ (fst k) (snd k).

(** [A] is being fetched and a call for [B] is queued behind it. *)
Definition busyAB : state (num := Z) :=
  exec showZ [call A; Clock 100; call B] init.

(** The fetch for [A] has failed at 150 ms; the debounce timer of the call
    for [B] (timer 0) is about to fire at 1100 ms. *)
Definition armedB : state (num := Z) :=
  exec showZ [call A; Clock 100; call B; Clock 150; FetchSettles 0 Failed;
              Clock 1100] init.

(** ... and it has fired: the deferred fetch for [B] (fetch 1) is in flight. *)
Definition deferredB : state (num := Z) := step showZ armedB (TimerFires 0).

(** [A] is being fetched, nothing is queued. *)
Definition busyA : state (num := Z) := exec showZ [call A; Clock 100] init.

(** [A] was answered at 10 ms: its slot-release timer (timer 0) is about to
    fire at 1010 ms, nothing was queued. *)
Definition cooldownA : state (num := Z) :=
  exec showZ [call A; Clock 10; FetchSettles 0 (Ok (Some "Smith County, Kansas"));
              Clock 1010] init.

(** [A] is being fetched since 0 ms, [B] was queued at 100 ms, and the clock
    reads 900 ms. *)
Definition lateAB : state (num := Z) :=
  exec showZ [call A; Clock 100; call B; Clock 900] init.

(** [toFixed(6)] of an integer. *)
Definition fixed6Z (z : Z) : string := pretty z +:+ ".000000".

(** The immediate fetch for [A] and the deferred fetch for [B]. *)
Definition fetchA : fetch (num := Z) :=
  {| fid := 0; flat := fst A; flng := snd A; fcont := AfterImmediate (keyOf A) 0 |}.
Definition fetchB : fetch (num := Z) :=
  {| fid := 1; flat := fst B; flng := snd B; fcont := AfterTrailing (keyOf B) |}.

(** * Proofs *)

(** ** Promises *)

Lemma settle_length p o ps : length (settle p o ps) = length ps.
Proof.
  unfold settle. destruct (ps !! p) as [[]|]; try done. by rewrite length_insert.
Qed.

Lemma settle_lookup_ne p q o ps : p ≠ q → settle p o ps !! q = ps !! q.
Proof.
  intros Hne. unfold settle.
  destruct (ps !! p) as [[]|]; try done. by rewrite list_lookup_insert_ne.
Qed.

Lemma settle_lookup_pending p o ps :
  ps !! p = Some Pending → settle p o ps !! p = Some o.
Proof.
  intros Hp. unfold settle. rewrite Hp.
  apply list_lookup_insert_eq. by eapply lookup_lt_Some.
Qed.

(** A settled promise keeps its state. *)
Lemma settle_lookup_settled p q o x ps :
  ps !! q = Some x → x ≠ Pending → settle p o ps !! q = Some x.
Proof.
  intros Hq Hx. destruct (decide (p = q)) as [->|Hne].
  - unfold settle. rewrite Hq. by destruct x.
  - by rewrite settle_lookup_ne.
Qed.

Lemma resolveAll_length rs v ps : length (resolveAll rs v ps) = length ps.
Proof.
  unfold resolveAll. revert ps.
  induction rs as [|r rs IH]; intros ps; simpl; [done|].
  by rewrite IH, settle_length.
Qed.

Lemma resolveAll_notin rs v ps q :
  q ∉ rs → resolveAll rs v ps !! q = ps !! q.
Proof.
  unfold resolveAll. revert ps.
  induction rs as [|r rs IH]; intros ps Hq; simpl; [done|].
  apply not_elem_of_cons in Hq as [Hne Hq].
  rewrite IH by done. by apply settle_lookup_ne.
Qed.

Lemma resolveAll_settled rs v ps q x :
  ps !! q = Some x → x ≠ Pending → resolveAll rs v ps !! q = Some x.
Proof.
  unfold resolveAll. revert ps.
  induction rs as [|r rs IH]; intros ps Hq Hx; simpl; [done|].
  apply IH; [|done]. by apply settle_lookup_settled.
Qed.

Lemma resolveAll_in rs v ps q :
  q ∈ rs → ps !! q = Some Pending →
  resolveAll rs v ps !! q = Some (Fulfilled v).
Proof.
  unfold resolveAll. revert ps.
  induction rs as [|r rs IH]; intros ps Hq Hp; simpl.
  - by apply not_elem_of_nil in Hq.
  - destruct (decide (r = q)) as [->|Hne].
    + apply (resolveAll_settled rs v); [|done]. by apply settle_lookup_pending.
    + apply elem_of_cons in Hq as [->|Hq]; [done|].
      apply IH; [done|]. by rewrite settle_lookup_ne.
Qed.

(** ** Counting in filtered lists *)

Section Counting.
Context {A : Type} (P Q : A → Prop) `{!∀ x, Decision (P x)} `{!∀ x, Decision (Q x)}.

Lemma count_filter_le (l : list A) :
  length (filter P (filter Q l)) ≤ length (filter P l).
Proof.
  induction l as [|x l IH]; [done|].
  destruct (decide (Q x)) as [HQ|HQ].
  - rewrite (filter_cons_True Q) by done.
    destruct (decide (P x)) as [HP|HP].
    + rewrite !(filter_cons_True P) by done. simpl. lia.
    + by rewrite !(filter_cons_False P) by done.
  - rewrite (filter_cons_False Q) by done.
    destruct (decide (P x)) as [HP|HP].
    + rewrite (filter_cons_True P) by done. simpl. lia.
    + by rewrite (filter_cons_False P) by done.
Qed.

Lemma count_filter_lt (l : list A) x :
  x ∈ l → P x → ¬ Q x →
  length (filter P (filter Q l)) < length (filter P l).
Proof.
  induction l as [|y l IH]; intros Hx HP HQ.
  - by apply not_elem_of_nil in Hx.
  - apply elem_of_cons in Hx as [<-|Hx].
    + rewrite (filter_cons_False Q), (filter_cons_True P) by done.
      simpl. pose proof (count_filter_le l). lia.
    + specialize (IH Hx HP HQ).
      destruct (decide (Q y)) as [HQy|HQy].
      * rewrite (filter_cons_True Q) by done.
        destruct (decide (P y)) as [HPy|HPy].
        -- rewrite !(filter_cons_True P) by done. simpl. lia.
        -- by rewrite !(filter_cons_False P) by done.
      * rewrite (filter_cons_False Q) by done.
        destruct (decide (P y)) as [HPy|HPy].
        -- rewrite (filter_cons_True P) by done. simpl. lia.
        -- by rewrite (filter_cons_False P) by done.
Qed.

Lemma count_zero_notin (l : list A) x :
  length (filter P l) = 0 → x ∈ l → ¬ P x.
Proof.
  intros Hz Hx HP.
  assert (x ∈ filter P l) as Hin by (by apply list_elem_of_filter).
  destruct (filter P l); [by apply not_elem_of_nil in Hin|done].
Qed.

End Counting.

(** ** The invariant *)

Section Proofs.
Context {num : Type} (toString : num → string).
Implicit Types (s : state (num := num)) (f : fetch (num := num)).

Lemma findFetch_Some n (fs : list (fetch (num := num))) f :
  findFetch n fs = Some f → f ∈ fs ∧ fid f = n.
Proof.
  unfold findFetch. intros H.
  destruct (list_find _ fs) as [[i x]|] eqn:E; simpl in H; [|done].
  injection H as <-. apply list_find_Some in E as (Hi & Hx & _).
  split; [by eapply list_elem_of_lookup_2|done].
Qed.

Lemma findTimer_Some n (ts : list timer) t :
  findTimer n ts = Some t → t ∈ ts ∧ tid t = n.
Proof.
  unfold findTimer. intros H.
  destruct (list_find _ ts) as [[i x]|] eqn:E; simpl in H; [|done].
  injection H as <-. apply list_find_Some in E as (Hi & Hx & _).
  split; [by eapply list_elem_of_lookup_2|done].
Qed.

Lemma consistent_init : consistent toString (init (num := num)).
Proof.
  split; simpl.
  - intros p Hp. by apply not_elem_of_nil in Hp.
  - intros f k p Hf. by apply not_elem_of_nil in Hf.
  - unfold immediateInFlight, slotTimersPending. simpl. lia.
  - done.
  - intros k [x Hx]. done.
  - intros f Hf. by apply not_elem_of_nil in Hf.
  - intros f Hf. by apply not_elem_of_nil in Hf.
Qed.

Lemma consistent_call lat lng s :
  consistent toString s → consistent toString (fst (getAddressFromCoordinates toString lat lng s)).
Proof.
  intros [Hq Hi Hone Hfree Hpc Hkey Hlog].
  unfold getAddressFromCoordinates.
  destruct (cache s !! cacheKeyOf toString lat lng) as [v|] eqn:Hc;
    [by split|].
  destruct (pendingRequests s !! cacheKeyOf toString lat lng) as [p0|] eqn:Hp;
    [by split|].
  destruct (hasExecutedImmediately s) eqn:Hflag; simpl.
  - (* queued *)
    assert (∀ p, p ∈ pendingResolvers s → p < length (promises s)) as Hlt.
    { intros p Hp'. eapply lookup_lt_Some. by apply Hq. }
    assert (slotTimersPending
              (clearTimeout (debounceTimer s) s) ≤ slotTimersPending s) as Hcl.
    { unfold clearTimeout, slotTimersPending.
      destruct (debounceTimer s); simpl; [apply count_filter_le|done]. }
    destruct (debounceTimer s) as [i|] eqn:Hd; simpl in *.
    + split; simpl.
      * intros p [Hp'| ->%list_elem_of_singleton]%elem_of_app.
        -- apply lookup_app_l_Some. by apply Hq.
        -- by apply list_lookup_middle.
      * intros f k p Hf Hk. destruct (Hi f k p Hf Hk) as [Hpp Hnq].
        split; [by apply lookup_app_l_Some|].
        intros [?| ->%list_elem_of_singleton]%elem_of_app; [done|].
        apply lookup_lt_Some in Hpp. lia.
      * unfold immediateInFlight, slotTimersPending in *. simpl in *.
        rewrite filter_app, length_app. simpl. lia.
      * congruence.
      * done.
      * done.
      * done.
    + split; simpl.
      * intros p [Hp'| ->%list_elem_of_singleton]%elem_of_app.
        -- apply lookup_app_l_Some. by apply Hq.
        -- by apply list_lookup_middle.
      * intros f k p Hf Hk. destruct (Hi f k p Hf Hk) as [Hpp Hnq].
        split; [by apply lookup_app_l_Some|].
        intros [?| ->%list_elem_of_singleton]%elem_of_app; [done|].
        apply lookup_lt_Some in Hpp. lia.
      * unfold immediateInFlight, slotTimersPending in *. simpl in *.
        rewrite filter_app, length_app. simpl. lia.
      * congruence.
      * done.
      * done.
      * done.
  - (* immediate *)
    destruct (Hfree eq_refl) as [Hz1 Hz2].
    split; simpl.
    + intros p Hp'. apply lookup_app_l_Some. by apply Hq.
    + intros f k p [Hf| ->%list_elem_of_singleton]%elem_of_app Hk.
      * destruct (Hi f k p Hf Hk) as [Hpp Hnq].
        split; [by apply lookup_app_l_Some|done].
      * simpl in Hk. injection Hk as <- <-.
        split; [by apply list_lookup_middle|].
        intros Hin. apply Hq, lookup_lt_Some in Hin. lia.
    + unfold immediateInFlight, slotTimersPending in *. simpl in *.
      rewrite filter_app, length_app. simpl. lia.
    + done.
    + intros k [x Hx].
      destruct (decide (cacheKeyOf toString lat lng = k)) as [<-|Hne]; [done|].
      rewrite lookup_insert_ne in Hx by done. by apply Hpc.
    + intros f [Hf| ->%list_elem_of_singleton]%elem_of_app; [by apply Hkey|done].
    + intros f [Hf| ->%list_elem_of_singleton]%elem_of_app;
      rewrite length_app; simpl; [apply Hlog in Hf|]; lia.
Qed.

Lemma consistent_executeTrailing s :
  consistent toString s → consistent toString (executeTrailing toString s).
Proof.
  intros [Hq Hi Hone Hfree Hpc Hkey Hlog]. unfold executeTrailing.
  destruct (lastArgs s) as [[lat lng]|]; [|by split].
  split; simpl; try done.
  - intros f k p [Hf| ->%list_elem_of_singleton]%elem_of_app Hk; [by eapply Hi|done].
  - unfold immediateInFlight, slotTimersPending in *. simpl.
    rewrite filter_app, length_app. simpl. lia.
  - intros Hflag. destruct (Hfree Hflag) as [Hz1 Hz2].
    unfold immediateInFlight, slotTimersPending in *. simpl.
    rewrite filter_app, length_app. simpl. lia.
  - intros f [Hf| ->%list_elem_of_singleton]%elem_of_app; [by apply Hkey|done].
  - intros f [Hf| ->%list_elem_of_singleton]%elem_of_app;
      rewrite length_app; simpl; [apply Hlog in Hf|]; lia.
Qed.

Lemma consistent_fetchSettles n r s :
  consistent toString s → consistent toString (fetchSettles n r s).
Proof.
  intros [Hq Hi Hone Hfree Hpc Hkey Hlog]. unfold fetchSettles.
  destruct (findFetch n (inflight s)) as [ft|] eqn:Hfind; [|by split].
  apply findFetch_Some in Hfind as [Hin Hfid].
  destruct (fcont ft) as [k p|k] eqn:Hk.
  - (* the immediate fetch settles *)
    assert (immediateInFlight (set_inflight (filter (λ x, fid x ≠ n)) s)
            < immediateInFlight s) as Hlt.
    { unfold immediateInFlight. simpl.
      apply (count_filter_lt _ _ _ ft); [done|by rewrite Hk|]. by intros []. }
    assert (hasExecutedImmediately s = true) as Hflag.
    { destruct (hasExecutedImmediately s); [done|].
      destruct (Hfree eq_refl). lia. }
    assert (∀ f, f ∈ filter (λ x, fid x ≠ n) (inflight s) →
                 isImmediate (fcont f) ≠ true) as Hnone.
    { intros f Hf. eapply (count_zero_notin (λ f, isImmediate (fcont f) = true)); [|done].
      unfold immediateInFlight in Hlt. simpl in Hlt.
      unfold immediateInFlight in Hone. lia. }
    destruct (Hi ft k p Hin Hk) as [Hpp Hnq].
    unfold immediateSettled. destruct r as [v|]; split; simpl.
    + intros q Hq'. by apply not_elem_of_nil in Hq'.
    + intros f k' p' Hf Hk'. apply Hnone in Hf. by rewrite Hk' in Hf.
    + unfold immediateInFlight, slotTimersPending in *. simpl in *.
      rewrite filter_app, length_app. simpl. lia.
    + congruence.
    + intros k' [x Hx]. destruct (decide (k = k')) as [<-|Hne].
      * by rewrite lookup_delete_eq in Hx.
      * rewrite lookup_delete_ne in Hx by done.
        rewrite lookup_insert_ne by done. by apply Hpc.
    + intros f' [_ Hf]%list_elem_of_filter. by apply Hkey.
    + intros f' [_ Hf]%list_elem_of_filter. by apply Hlog.
    + intros q Hq'. rewrite settle_lookup_ne; [by apply Hq|]. by intros ->.
    + intros f k' p' Hf Hk'. apply Hnone in Hf. by rewrite Hk' in Hf.
    + unfold immediateInFlight, slotTimersPending in *. simpl in *.
      rewrite filter_app, length_app. simpl. lia.
    + congruence.
    + done.
    + intros f' [_ Hf]%list_elem_of_filter. by apply Hkey.
    + intros f' [_ Hf]%list_elem_of_filter. by apply Hlog.
  - (* a trailing fetch settles *)
    assert (immediateInFlight (set_inflight (filter (λ x, fid x ≠ n)) s)
            ≤ immediateInFlight s) as Hle.
    { unfold immediateInFlight. simpl. apply count_filter_le. }
    unfold trailingSettled. destruct r as [v|]; split; simpl.
    + intros q Hq'. by apply not_elem_of_nil in Hq'.
    + intros f k' p' [_ Hf]%list_elem_of_filter Hk'.
      destruct (Hi f k' p' Hf Hk') as [Hpp Hnq].
      split; [by rewrite resolveAll_notin|apply not_elem_of_nil].
    + unfold immediateInFlight, slotTimersPending in *. simpl in *. lia.
    + intros Hflag. destruct (Hfree Hflag).
      unfold immediateInFlight, slotTimersPending in *. simpl in *. lia.
    + intros k' [x Hx]. destruct (decide (k = k')) as [<-|Hne].
      * by rewrite lookup_delete_eq in Hx.
      * rewrite lookup_delete_ne in Hx by done.
        rewrite lookup_insert_ne by done. by apply Hpc.
    + intros f' [_ Hf]%list_elem_of_filter. by apply Hkey.
    + intros f' [_ Hf]%list_elem_of_filter. by apply Hlog.
    + intros q Hq'. by apply not_elem_of_nil in Hq'.
    + intros f k' p' [_ Hf]%list_elem_of_filter Hk'.
      destruct (Hi f k' p' Hf Hk') as [Hpp Hnq].
      split; [by rewrite resolveAll_notin|apply not_elem_of_nil].
    + unfold immediateInFlight, slotTimersPending in *. simpl in *. lia.
    + intros Hflag. destruct (Hfree Hflag).
      unfold immediateInFlight, slotTimersPending in *. simpl in *. lia.
    + intros k' [x Hx]. destruct (decide (k = k')) as [<-|Hne].
      * by rewrite lookup_delete_eq in Hx.
      * rewrite lookup_delete_ne in Hx by done. by apply Hpc.
    + intros f' [_ Hf]%list_elem_of_filter. by apply Hkey.
    + intros f' [_ Hf]%list_elem_of_filter. by apply Hlog.
Qed.

Lemma consistent_timerFires n s :
  consistent toString s → consistent toString (timerFires toString n s).
Proof.
  intros [Hq Hi Hone Hfree Hpc Hkey Hlog]. unfold timerFires.
  destruct (findTimer n (timers s)) as [tm|] eqn:Hfind; [|by split].
  apply findTimer_Some in Hfind as [Hin Htid].
  destruct (cb tm) eqn:Hcb.
  - (* slot release *)
    assert (slotTimersPending (set_timers (filter (λ x, tid x ≠ n)) s)
            < slotTimersPending s) as Hlt.
    { unfold slotTimersPending. simpl.
      apply (count_filter_lt _ _ _ tm); [done|unfold isSlotRelease; by rewrite Hcb|].
      by intros []. }
    unfold slotReleaseFired.
    assert (consistent toString (set_hasExecutedImmediately false
                          (set_timers (filter (λ x, tid x ≠ n)) s))) as Hs1.
    { split; simpl; try done.
      - unfold immediateInFlight, slotTimersPending in *. simpl in *. lia.
      - intros _. unfold immediateInFlight, slotTimersPending in *. simpl in *. lia. }
    destruct (_ && _); [by apply consistent_executeTrailing|done].
  - (* debounce *)
    assert (slotTimersPending (set_timers (filter (λ x, tid x ≠ n)) s)
            ≤ slotTimersPending s) as Hle.
    { unfold slotTimersPending. simpl. apply count_filter_le. }
    unfold debounceFired. apply consistent_executeTrailing.
    split; simpl; try done.
    + unfold immediateInFlight, slotTimersPending in *. simpl in *. lia.
    + intros Hflag. destruct (Hfree Hflag).
      unfold immediateInFlight, slotTimersPending in *. simpl in *. lia.
Qed.

Lemma consistent_step s e : consistent toString s → consistent toString (step toString s e).
Proof.
  intros Hs. destruct e as [lat lng|n r|n|t]; simpl.
  - by apply consistent_call.
  - by apply consistent_fetchSettles.
  - by apply consistent_timerFires.
  - destruct Hs. by split.
Qed.

Lemma consistent_exec es s : consistent toString s → consistent toString (exec toString es s).
Proof.
  revert s. induction es as [|e es IH]; intros s Hs; simpl; [done|].
  apply IH. by apply consistent_step.
Qed.

Lemma reachable_consistent s : reachable toString s → consistent toString s.
Proof. intros [es ->]. apply consistent_exec, consistent_init. Qed.

Lemma reachable_step s e : reachable toString s → reachable toString (step toString s e).
Proof.
  intros [es ->]. exists (es ++ [e]). unfold exec. by rewrite foldl_app.
Qed.

Lemma reachable_exec es s : reachable toString s → reachable toString (exec toString es s).
Proof.
  intros [es0 ->]. exists (es0 ++ es). unfold exec. by rewrite foldl_app.
Qed.

(** ** What each step does to the promises and to the queue *)

Lemma executeTrailing_frame s :
  promises (executeTrailing toString s) = promises s ∧
  pendingResolvers (executeTrailing toString s) = pendingResolvers s ∧
  cache (executeTrailing toString s) = cache s ∧
  pendingRequests (executeTrailing toString s) = pendingRequests s ∧
  lastArgs (executeTrailing toString s) = lastArgs s ∧
  hasExecutedImmediately (executeTrailing toString s) = hasExecutedImmediately s.
Proof.
  unfold executeTrailing.
  destruct (lastArgs s) as [[lat lng]|] eqn:E; simpl; by rewrite ?E.
Qed.

Lemma timerFires_frame n s :
  promises (timerFires toString n s) = promises s ∧
  pendingResolvers (timerFires toString n s) = pendingResolvers s ∧
  cache (timerFires toString n s) = cache s ∧
  pendingRequests (timerFires toString n s) = pendingRequests s ∧
  lastArgs (timerFires toString n s) = lastArgs s.
Proof.
  unfold timerFires. destruct (findTimer n (timers s)) as [tm|]; [|done].
  destruct (cb tm); unfold slotReleaseFired, debounceFired.
  - destruct (_ && _); [|done].
    destruct (executeTrailing_frame
      (set_hasExecutedImmediately false (set_timers (filter (λ x, tid x ≠ n)) s)))
      as (-> & -> & -> & -> & -> & _). done.
  - destruct (executeTrailing_frame (set_timers (filter (λ x, tid x ≠ n)) s))
      as (-> & -> & -> & -> & -> & _). done.
Qed.

(** A settled promise never changes. *)
Lemma settled_step s e q x :
  promises s !! q = Some x → x ≠ Pending →
  promises (step toString s e) !! q = Some x.
Proof.
  intros Hq Hx. destruct e as [lat lng|n r|n|t]; simpl.
  - unfold getAddressFromCoordinates.
    destruct (cache s !! _); [done|]. destruct (pendingRequests s !! _); [done|].
    destruct (hasExecutedImmediately s); simpl.
    + destruct (debounceTimer s); simpl; by apply lookup_app_l_Some.
    + by apply lookup_app_l_Some.
  - unfold fetchSettles. destruct (findFetch n (inflight s)) as [ft|]; [|done].
    destruct (fcont ft) as [k p|k]; unfold immediateSettled, trailingSettled;
      destruct r as [v|]; simpl.
    + apply settle_lookup_settled; [|done]. by apply resolveAll_settled.
    + by apply settle_lookup_settled.
    + by apply resolveAll_settled.
    + by apply resolveAll_settled.
  - by destruct (timerFires_frame n s) as (-> & _).
  - done.
Qed.

Lemma settled_exec es s q x :
  promises s !! q = Some x → x ≠ Pending →
  promises (exec toString es s) !! q = Some x.
Proof.
  revert s. induction es as [|e es IH]; intros s Hq Hx; simpl; [done|].
  apply IH; [|done]. by apply settled_step.
Qed.

(** The queued resolvers are resolved together: a step either leaves all of
    them queued and pending, or resolves all of them with one value and
    empties the queue; the latter is what the settlement of a fetch does,
    with the value [flushValue] names. *)
Lemma queue_step s e :
  consistent toString s →
  match e with
  | FetchSettles n r =>
      match findFetch n (inflight s) with
      | Some f =>
          match flushValue (fcont f) r with
          | Some v =>
              pendingResolvers (step toString s e) = [] ∧
              ∀ w, w ∈ pendingResolvers s →
                   promises (step toString s e) !! w = Some (Fulfilled v)
          | None =>
              pendingResolvers (step toString s e) = pendingResolvers s ∧
              ∀ w, w ∈ pendingResolvers s →
                   promises (step toString s e) !! w = Some Pending
          end
      | None => step toString s e = s
      end
  | _ =>
      (∃ ext, pendingResolvers (step toString s e) = pendingResolvers s ++ ext) ∧
      ∀ w, w ∈ pendingResolvers s → promises (step toString s e) !! w = Some Pending
  end.
Proof.
  intros [Hq Hi Hone Hfree Hpc Hkey Hlog]. destruct e as [lat lng|n r|n|t]; simpl.
  - unfold getAddressFromCoordinates.
    destruct (cache s !! _); [split; [by exists []; rewrite app_nil_r|done]|].
    destruct (pendingRequests s !! _); [split; [by exists []; rewrite app_nil_r|done]|].
    destruct (hasExecutedImmediately s); simpl.
    + destruct (debounceTimer s); simpl;
        (split; [by eexists|intros w Hw; by apply lookup_app_l_Some, Hq]).
    + split; [by exists []; rewrite app_nil_r|].
      intros w Hw. by apply lookup_app_l_Some, Hq.
  - unfold fetchSettles. destruct (findFetch n (inflight s)) as [ft|] eqn:Hfind; [|done].
    apply findFetch_Some in Hfind as [Hin Hfid].
    destruct (fcont ft) as [k p|k] eqn:Hk; unfold immediateSettled, trailingSettled;
      destruct r as [v|]; simpl.
    + split; [done|]. intros w Hw.
      apply settle_lookup_settled; [|done]. apply resolveAll_in; [done|by apply Hq].
    + split; [done|]. intros w Hw.
      destruct (Hi ft k p Hin Hk) as [_ Hnq].
      rewrite settle_lookup_ne; [by apply Hq|]. by intros ->.
    + split; [done|]. intros w Hw. apply resolveAll_in; [done|by apply Hq].
    + split; [done|]. intros w Hw. apply resolveAll_in; [done|by apply Hq].
  - destruct (timerFires_frame n s) as (-> & -> & _).
    split; [by exists []; rewrite app_nil_r|done].
  - split; [by exists []; rewrite app_nil_r|done].
Qed.

Lemma queuedOrFulfilled_step p s e :
  consistent toString s → queuedOrFulfilled p s →
  queuedOrFulfilled p (step toString s e).
Proof.
  intros Hs [[Hp Hin]|[v Hv]]; unfold queuedOrFulfilled.
  - pose proof (queue_step s e Hs) as H. destruct e as [lat lng|n r|n|t].
    + destruct H as [[ext ->] H]. left. split; [by apply H|].
      apply elem_of_app. by left.
    + destruct (findFetch n (inflight s)) as [ft|]; [|rewrite H; by left].
      destruct (flushValue (fcont ft) r) as [v|]; destruct H as [Hq H].
      * right. exists v. by apply H.
      * left. split; [by apply H|by rewrite Hq].
    + destruct H as [[ext ->] H]. left. split; [by apply H|].
      apply elem_of_app. by left.
    + destruct H as [[ext ->] H]. left. split; [by apply H|].
      apply elem_of_app. by left.
  - right. exists v. by apply settled_step.
Qed.

Lemma queuedOrFulfilled_exec p es s :
  consistent toString s → queuedOrFulfilled p s →
  queuedOrFulfilled p (exec toString es s).
Proof.
  revert s. induction es as [|e es IH]; intros s Hs Hp; simpl; [done|].
  apply IH; [by apply consistent_step|by apply queuedOrFulfilled_step].
Qed.

(** The call that takes the queue path. *)
Lemma call_queued lat lng s :
  cache s !! cacheKeyOf toString lat lng = None →
  pendingRequests s !! cacheKeyOf toString lat lng = None →
  hasExecutedImmediately s = true →
  let r := getAddressFromCoordinates toString lat lng s in
  snd r = Follows (length (promises s)) ∧
  promises (fst r) = promises s ++ [Pending] ∧
  pendingResolvers (fst r) = pendingResolvers s ++ [length (promises s)] ∧
  lastArgs (fst r) = Some (lat, lng) ∧
  fetchLog (fst r) = fetchLog s ∧ inflight (fst r) = inflight s ∧
  cache (fst r) = cache s ∧ pendingRequests (fst r) = pendingRequests s ∧
  hasExecutedImmediately (fst r) = true.
Proof.
  intros Hc Hp Hflag. unfold getAddressFromCoordinates.
  rewrite Hc, Hp, Hflag. simpl. by destruct (debounceTimer s).
Qed.

(** The call that dispatches at once. *)
Lemma call_immediate lat lng s :
  cache s !! cacheKeyOf toString lat lng = None →
  pendingRequests s !! cacheKeyOf toString lat lng = None →
  hasExecutedImmediately s = false →
  let r := getAddressFromCoordinates toString lat lng s in
  let f := {| fid := length (fetchLog s); flat := lat; flng := lng;
              fcont := AfterImmediate (cacheKeyOf toString lat lng) (length (promises s)) |} in
  snd r = Follows (length (promises s)) ∧
  promises (fst r) = promises s ++ [Pending] ∧
  pendingResolvers (fst r) = pendingResolvers s ∧
  fetchLog (fst r) = fetchLog s ++ [f] ∧ inflight (fst r) = inflight s ++ [f] ∧
  cache (fst r) = cache s ∧
  pendingRequests (fst r) =
    <[cacheKeyOf toString lat lng := length (promises s)]> (pendingRequests s) ∧
  hasExecutedImmediately (fst r) = true.
Proof.
  intros Hc Hp Hflag. unfold getAddressFromCoordinates.
  by rewrite Hc, Hp, Hflag.
Qed.

(** Two resolvers that are in the queue together stay together. *)
Lemma together_step w1 w2 s e :
  consistent toString s → together w1 w2 s → together w1 w2 (step toString s e).
Proof.
  intros Hs [[H1 H2]|(v & H1 & H2)]; unfold together.
  - pose proof (queue_step s e Hs) as H. destruct e as [lat lng|n r|n|t].
    + destruct H as [[ext ->] _]. left. split; apply elem_of_app; by left.
    + destruct (findFetch n (inflight s)) as [ft|]; [|rewrite H; by left].
      destruct (flushValue (fcont ft) r) as [v|]; destruct H as [Hq H].
      * right. exists v. split; by apply H.
      * left. by rewrite Hq.
    + destruct H as [[ext ->] _]. left. split; apply elem_of_app; by left.
    + destruct H as [[ext ->] _]. left. split; apply elem_of_app; by left.
  - right. exists v. split; by apply settled_step.
Qed.

Lemma together_exec w1 w2 es s :
  consistent toString s → together w1 w2 s → together w1 w2 (exec toString es s).
Proof.
  revert s. induction es as [|e es IH]; intros s Hs Hw; simpl; [done|].
  apply IH; [by apply consistent_step|by apply together_step].
Qed.

Lemma together_outcome w1 w2 s :
  consistent toString s → together w1 w2 s →
  outcome s (Follows w1) = outcome s (Follows w2).
Proof.
  intros Hs [[H1 H2]|(v & H1 & H2)]; unfold outcome.
  - by rewrite (queued_pending _ _ Hs w1 H1), (queued_pending _ _ Hs w2 H2).
  - by rewrite H1, H2.
Qed.

(** ** The claims *)


(** C10. The handle given to a call that is queued never rejects: whatever
    happens afterwards (every fetch may fail), it is pending or fulfilled,
    with a string or with [null]. *)
Theorem C10_queued_handle_never_rejects s lat lng es :
  reachable toString s →
  cache s !! cacheKeyOf toString lat lng = None →
  pendingRequests s !! cacheKeyOf toString lat lng = None →
  hasExecutedImmediately s = true →
  let r := getAddressFromCoordinates toString lat lng s in
  outcome (exec toString es (fst r)) (snd r) ≠ Rejected ∧
  (outcome (exec toString es (fst r)) (snd r) = Pending ∨
   ∃ v : option string, outcome (exec toString es (fst r)) (snd r) = Fulfilled v).
Proof.
  intros Hr Hc Hp Hflag r.
  assert (consistent toString (fst r)) as Hs1.
  { apply consistent_call. by apply reachable_consistent. }
  destruct (call_queued lat lng s Hc Hp Hflag) as (Hh & Hps & Hqs & _).
  fold r in Hh, Hps, Hqs.
  assert (queuedOrFulfilled (length (promises s)) (fst r)) as Hw.
  { left. rewrite Hps, Hqs. split; [by apply list_lookup_middle|].
    apply elem_of_app. right. by apply list_elem_of_singleton. }
  apply (queuedOrFulfilled_exec _ es) in Hw; [|done].
  rewrite Hh. unfold outcome.
  destruct Hw as [[-> _]|[v ->]]; simpl; split; try done; [by left|right; by exists v].
Qed.

Lemma findFetch_snoc (fs : list (fetch (num := num))) f :
  (∀ x, x ∈ fs → fid x ≠ fid f) → findFetch (fid f) (fs ++ [f]) = Some f.
Proof.
  unfold findFetch. induction fs as [|y fs IH]; intros Hne; csimpl.
  - by rewrite decide_True.
  - rewrite decide_False by (apply Hne; by left).
    destruct (list_find _ (fs ++ [f])) as [[i x]|] eqn:E; simpl in *.
    + apply IH. intros x' Hx'. apply Hne. by right.
    + exfalso. specialize (IH (λ x' Hx', Hne x' (list_elem_of_further _ _ _ Hx'))).
      done.
Qed.

(** While a key has a pending request, a call for it returns the handle of
    that request and changes nothing. *)
Lemma call_pending lat lng s p :
  consistent toString s →
  pendingRequests s !! cacheKeyOf toString lat lng = Some p →
  getAddressFromCoordinates toString lat lng s = (s, Follows p).
Proof.
  intros Hs Hp. unfold getAddressFromCoordinates.
  rewrite (pending_uncached _ _ Hs) by (by eexists). by rewrite Hp.
Qed.


(** C2 (as the code has it). At every instant at most one immediate dispatch
    is in flight, and none is while the slot is free or while a slot-release
    timer is pending. *)
Theorem C2_one_immediate_dispatch es :
  immediateInFlight (exec toString es init) ≤ 1 ∧
  (0 < slotTimersPending (exec toString es init) →
   immediateInFlight (exec toString es init) = 0) ∧
  (hasExecutedImmediately (exec toString es init) = false →
   immediateInFlight (exec toString es init) = 0).
Proof.
  destruct (consistent_exec es init consistent_init) as [_ _ Hone Hfree _ _ _].
  split; [lia|]. split; [lia|]. intros H. by destruct (Hfree H).
Qed.

Lemma cached_step s e k :
  is_Some (cache s !! k) → is_Some (cache (step toString s e) !! k).
Proof.
  intros Hk. destruct e as [lat lng|n r|n|t]; simpl.
  - unfold getAddressFromCoordinates.
    destruct (cache s !! cacheKeyOf toString lat lng); [done|].
    destruct (pendingRequests s !! _); [done|].
    destruct (hasExecutedImmediately s); simpl; [|done].
    by destruct (debounceTimer s).
  - unfold fetchSettles. destruct (findFetch n (inflight s)) as [ft|]; [|done].
    destruct (fcont ft) as [k' p|k']; unfold immediateSettled, trailingSettled;
      destruct r as [v|]; simpl; try done;
      (destruct (decide (k' = k)) as [->|Hne];
       [rewrite lookup_insert_eq; by eexists|by rewrite lookup_insert_ne]).
  - by destruct (timerFires_frame n s) as (_ & _ & -> & _).
  - done.
Qed.

Lemma cached_exec es s k :
  is_Some (cache s !! k) → is_Some (cache (exec toString es s) !! k).
Proof.
  revert s. induction es as [|e es IH]; intros s Hk; simpl; [done|].
  by apply IH, cached_step.
Qed.

Lemma call_cached lat lng s v :
  cache s !! cacheKeyOf toString lat lng = Some v →
  getAddressFromCoordinates toString lat lng s = (s, Resolved v).
Proof. intros Hc. unfold getAddressFromCoordinates. by rewrite Hc. Qed.

(** C3 (as the code has it). Once a dispatch for a key has succeeded with
    [v], immediate or deferred, the key is cached: a call for it returns [v]
    and changes nothing, so it makes no fetch; and after any further steps a
    call for it still returns what the cache holds and changes nothing.  The
    settlement of a fetch writes the cache under the key of that fetch only:
    the entry of any other key, also the key of a queued call it resolves, is
    left as it was. *)
Theorem C3_cached_key_is_served_from_cache s n f v lat lng es :
  findFetch n (inflight s) = Some f →
  contKey (fcont f) = cacheKeyOf toString lat lng →
  getAddressFromCoordinates toString lat lng (fetchSettles n (Ok v) s)
    = (fetchSettles n (Ok v) s, Resolved v) ∧
  (∃ v', getAddressFromCoordinates toString lat lng
           (exec toString es (fetchSettles n (Ok v) s))
         = (exec toString es (fetchSettles n (Ok v) s), Resolved v')) ∧
  (∀ r k', k' ≠ cacheKeyOf toString lat lng →
           cache (fetchSettles n r s) !! k' = cache s !! k').
Proof.
  intros Hfind Hk.
  assert (cache (fetchSettles n (Ok v) s) !! cacheKeyOf toString lat lng = Some v) as Hc.
  { unfold fetchSettles. rewrite Hfind.
    destruct (fcont f) as [k p|k]; simpl in Hk; subst k; simpl; apply lookup_insert_eq. }
  split; [by apply call_cached|]. split.
  - destruct (cached_exec es _ _ (mk_is_Some _ _ Hc)) as [v' Hv'].
    exists v'. by apply call_cached.
  - intros r k' Hne. unfold fetchSettles. rewrite Hfind.
    destruct (fcont f) as [k p|k]; simpl in Hk; subst k;
      unfold immediateSettled, trailingSettled; destruct r as [v0|]; simpl;
      try done; by rewrite lookup_insert_ne.
Qed.

Lemma pending_step s e k p :
  pendingRequests s !! k = Some p → quietFor toString k [e] s →
  pendingRequests (step toString s e) !! k = Some p.
Proof.
  intros Hp [Hquiet _]. destruct e as [lat lng|n r|n|t]; simpl.
  - unfold getAddressFromCoordinates.
    destruct (cache s !! _); [done|].
    destruct (pendingRequests s !! cacheKeyOf toString lat lng) eqn:E; [done|].
    destruct (hasExecutedImmediately s); simpl.
    + by destruct (debounceTimer s).
    + rewrite lookup_insert_ne; [done|]. intros <-. congruence.
  - unfold fetchSettles. destruct (findFetch n (inflight s)) as [ft|]; [|done].
    destruct (fcont ft) as [k' q|k']; simpl in Hquiet;
      unfold immediateSettled, trailingSettled; destruct r as [v|]; simpl;
      try done; by rewrite lookup_delete_ne.
  - by destruct (timerFires_frame n s) as (_ & _ & _ & -> & _).
  - done.
Qed.

(** C5 (as the code has it). The failure of the immediate dispatch for a key
    leaves the table of pending requests as it was and rejects the handle.
    As long as no other fetch for that key settles, the entry stays: every
    call for the key gets the rejected handle and changes nothing, so it
    makes no fetch. *)
Theorem C5_failed_entry_stays s n f k p es :
  reachable toString s →
  findFetch n (inflight s) = Some f →
  fcont f = AfterImmediate k p →
  pendingRequests s !! k = Some p →
  quietFor toString k es (fetchSettles n Failed s) →
  pendingRequests (fetchSettles n Failed s) = pendingRequests s ∧
  pendingRequests (exec toString es (fetchSettles n Failed s)) !! k = Some p ∧
  outcome (exec toString es (fetchSettles n Failed s)) (Follows p) = Rejected ∧
  getAddressFromCoordinates toString (flat f) (flng f)
      (exec toString es (fetchSettles n Failed s))
    = (exec toString es (fetchSettles n Failed s), Follows p).
Proof.
  intros Hr Hfind Hk Hp Hquiet.
  pose proof (C := reachable_consistent s Hr).
  pose proof Hfind as [Hin _]%findFetch_Some.
  assert (k = cacheKeyOf toString (flat f) (flng f)) as Hkey.
  { pose proof (key_of_fetch _ _ C f Hin) as H. by rewrite Hk in H. }
  destruct (immediate_pending _ _ C f k p Hin Hk) as [Hpp _].
  assert (pendingRequests (fetchSettles n Failed s) = pendingRequests s) as Hsame.
  { unfold fetchSettles. by rewrite Hfind, Hk. }
  assert (promises (fetchSettles n Failed s) !! p = Some Rejected) as Hrej.
  { unfold fetchSettles. rewrite Hfind, Hk. simpl. by apply settle_lookup_pending. }
  assert (consistent toString (fetchSettles n Failed s)) as C1
    by (by apply consistent_fetchSettles).
  assert (pendingRequests (fetchSettles n Failed s) !! k = Some p) as Hp1
    by (by rewrite Hsame).
  split; [done|].
  revert Hquiet Hrej C1 Hp1. generalize (fetchSettles n Failed s).
  induction es as [|e es IH]; intros s1 Hquiet Hrej C1 Hp1; simpl.
  - split; [done|]. split; [unfold outcome; by rewrite Hrej|].
    apply call_pending; [done|]. by rewrite <- Hkey.
  - destruct Hquiet as [Hq1 Hq2]. apply IH; [done| | |].
    + by apply settled_step.
    + by apply consistent_step.
    + apply pending_step; [done|]. by split.
Qed.

Lemma timerFires_noArgs n s :
  lastArgs s = None →
  timerFires toString n s =
    match findTimer n (timers s) with
    | None => s
    | Some tm =>
        match cb tm with
        | SlotRelease =>
            set_hasExecutedImmediately false (set_timers (filter (λ x, tid x ≠ n)) s)
        | Debounce => set_timers (filter (λ x, tid x ≠ n)) s
        end
    end.
Proof.
  intros Hl. unfold timerFires. destruct (findTimer n (timers s)) as [tm|]; [|done].
  destruct (cb tm); unfold slotReleaseFired, debounceFired, executeTrailing; simpl;
    rewrite Hl; [|done].
  by rewrite andb_comm.
Qed.

(** C7 (as the code has it). A timer that fires while [lastArgs] is empty
    makes no fetch: the debounce timer changes nothing of the object, the
    slot-release timer only resets [hasExecutedImmediately].  The first timer
    to fire while [lastArgs] is set (for the slot-release timer: and the queue
    is not empty) starts the deferred fetch for [lastArgs]; the queue and
    [lastArgs] are left as they are until that fetch settles, which empties
    the one and clears the other; the timer that fires after that makes no
    fetch. *)
Theorem C7_timer_race s n tm :
  reachable toString s →
  findTimer n (timers s) = Some tm →
  (lastArgs s = None →
     fetchLog (timerFires toString n s) = fetchLog s ∧
     inflight (timerFires toString n s) = inflight s ∧
     cache (timerFires toString n s) = cache s ∧
     pendingRequests (timerFires toString n s) = pendingRequests s ∧
     pendingResolvers (timerFires toString n s) = pendingResolvers s ∧
     promises (timerFires toString n s) = promises s ∧
     lastArgs (timerFires toString n s) = None ∧
     hasExecutedImmediately (timerFires toString n s) =
       match cb tm with
       | SlotRelease => false
       | Debounce => hasExecutedImmediately s
       end) ∧
  (∀ lat lng,
     lastArgs s = Some (lat, lng) →
     cb tm = Debounce ∨ pendingResolvers s ≠ [] →
     let f := {| fid := length (fetchLog s); flat := lat; flng := lng;
                 fcont := AfterTrailing (cacheKeyOf toString lat lng) |} in
     fetchesSince s (timerFires toString n s) = [f] ∧
     pendingResolvers (timerFires toString n s) = pendingResolvers s ∧
     lastArgs (timerFires toString n s) = Some (lat, lng) ∧
     ∀ r n',
       pendingResolvers (fetchSettles (fid f) r (timerFires toString n s)) = [] ∧
       lastArgs (fetchSettles (fid f) r (timerFires toString n s)) = None ∧
       fetchLog (timerFires toString n'
                   (fetchSettles (fid f) r (timerFires toString n s)))
         = fetchLog (fetchSettles (fid f) r (timerFires toString n s))).
Proof.
  intros Hr Hfind. apply reachable_consistent in Hr. split.
  - intros Hl. rewrite (timerFires_noArgs n s Hl), Hfind.
    by destruct (cb tm).
  - intros lat lng Hl Hcase f.
    assert (∃ s1, timerFires toString n s = fetchAddress lat lng (AfterTrailing (cacheKeyOf toString lat lng)) s1 ∧
                  fetchLog s1 = fetchLog s ∧ inflight s1 = inflight s ∧
                  pendingResolvers s1 = pendingResolvers s ∧
                  lastArgs s1 = Some (lat, lng)) as (s1 & -> & Hlog & Hin & Hqs & Hl1).
    { unfold timerFires. rewrite Hfind.
      destruct (cb tm) eqn:Hcb; unfold slotReleaseFired, debounceFired, executeTrailing;
        simpl; rewrite Hl.
      - destruct Hcase as [?|Hne]; [done|].
        rewrite bool_decide_true
          by (destruct (pendingResolvers s); [done|simpl; lia]).
        rewrite bool_decide_true by (by eexists). simpl.
        by eexists.
      - by eexists. }
    simpl. split; [|split; [done|split; [done|]]].
    { unfold fetchesSince, fetchAddress. simpl. rewrite Hlog. apply drop_app_length. }
    intros r n'.
    assert (findFetch (length (fetchLog s))
              (inflight (fetchAddress lat lng (AfterTrailing (cacheKeyOf toString lat lng)) s1)) = Some f) as Hff.
    { unfold fetchAddress. simpl. rewrite Hlog, Hin. apply (findFetch_snoc _ f).
      intros x Hx. apply (fid_logged _ _ Hr) in Hx. simpl. lia. }
    assert (lastArgs (fetchSettles (length (fetchLog s)) r
                        (fetchAddress lat lng (AfterTrailing (cacheKeyOf toString lat lng)) s1)) = None) as Hnone.
    { unfold fetchSettles. rewrite Hff. simpl. by destruct r. }
    split; [|split; [done|]].
    + unfold fetchSettles. rewrite Hff. simpl. by destruct r.
    + rewrite (timerFires_noArgs n' _ Hnone).
      destruct (findTimer n' _) as [tm'|]; [|done]. by destruct (cb tm').
Qed.

Lemma timerFires_fetches n s :
  fetchesSince s (timerFires toString n s) = [] ∨
  ∃ lat lng, lastArgs s = Some (lat, lng) ∧
    fetchesSince s (timerFires toString n s) =
      [{| fid := length (fetchLog s); flat := lat; flng := lng;
          fcont := AfterTrailing (cacheKeyOf toString lat lng) |}].
Proof.
  assert (∀ s1, fetchLog s1 = fetchLog s → lastArgs s1 = lastArgs s →
    fetchesSince s (executeTrailing toString s1) = [] ∨
    ∃ lat lng, lastArgs s = Some (lat, lng) ∧
      fetchesSince s (executeTrailing toString s1) =
        [{| fid := length (fetchLog s); flat := lat; flng := lng;
            fcont := AfterTrailing (cacheKeyOf toString lat lng) |}]) as Hex.
  { intros s1 Hlog Hl. unfold executeTrailing, fetchesSince. rewrite Hl.
    destruct (lastArgs s) as [[lat lng]|].
    - right. exists lat, lng. split; [done|].
      unfold fetchAddress. simpl. rewrite Hlog. apply drop_app_length.
    - left. rewrite Hlog. apply drop_all. }
  unfold timerFires. destruct (findTimer n (timers s)) as [tm|].
  - destruct (cb tm); unfold slotReleaseFired, debounceFired.
    + destruct (_ && _); [by apply Hex|]. left. apply drop_all.
    + by apply Hex.
  - left. apply drop_all.
Qed.

(** ** Timed runs are runs *)

Lemma earliest_elem_of (ts : list timer) x : earliest ts = Some x → x ∈ ts.
Proof.
  revert x. induction ts as [|y ts IH]; intros x; simpl; [done|].
  destruct (earliest ts) as [z|].
  - case_bool_decide; intros [= <-]; [right; by apply IH|by left].
  - intros [= <-]. by left.
Qed.

Lemma timerFires_timers n s tm :
  findTimer n (timers s) = Some tm →
  timers (timerFires toString n s) = filter (λ x, tid x ≠ n) (timers s).
Proof.
  intros Hfind. unfold timerFires. rewrite Hfind.
  destruct (cb tm); unfold slotReleaseFired, debounceFired.
  - destruct (_ && _); [|done]. unfold executeTrailing. simpl.
    by destruct (lastArgs s) as [[lat lng]|].
  - unfold executeTrailing. simpl. by destruct (lastArgs s) as [[lat lng]|].
Qed.

(** The fuel [timedStep] gives to [advance] is enough: once the clock has
    reached [t], no pending timer is due. *)
Lemma advance_complete fuel t s :
  length (timers s) ≤ fuel → nextDue t (advance toString fuel t s) = None.
Proof.
  revert s. induction fuel as [|fuel IH]; intros s Hlen; simpl.
  - unfold nextDue. simpl. destruct (timers s); [done|simpl in Hlen; lia].
  - destruct (nextDue t s) as [x|] eqn:Hnext; [|done].
    apply IH. unfold nextDue in Hnext.
    destruct (earliest (timers s)) as [y|] eqn:Hy; [|done].
    case_bool_decide; [|done]. injection Hnext as ->.
    apply earliest_elem_of in Hy.
    destruct (findTimer (tid x) (timers (set_now (due x) s))) as [tm|] eqn:Hfind.
    + rewrite (timerFires_timers _ _ tm Hfind). simpl.
      pose proof (length_filter_lt (λ z, tid z ≠ tid x) (timers s) x Hy) as Hlt.
      assert (length (filter (λ z, tid z ≠ tid x) (timers s)) < length (timers s))
        by (apply Hlt; by intros []).
      lia.
    + exfalso. unfold findTimer in Hfind. simpl in Hfind.
      destruct (list_find (λ z, tid z = tid x) (timers s)) as [[i z]|] eqn:E;
        [done|].
      apply list_find_None in E. rewrite Forall_forall in E. by apply (E x).
Qed.

Lemma reachable_advance fuel t s :
  reachable toString s → reachable toString (advance toString fuel t s).
Proof.
  revert s. induction fuel as [|fuel IH]; intros s Hs; simpl.
  - by apply (reachable_step s (Clock t)).
  - destruct (nextDue t s) as [x|].
    + apply IH. apply (reachable_step _ (TimerFires (tid x))).
      by apply (reachable_step s (Clock (due x))).
    + by apply (reachable_step s (Clock t)).
Qed.

Lemma reachable_timedStep sh ti :
  reachable toString (fst sh) → reachable toString (fst (timedStep toString sh ti)).
Proof.
  destruct sh as [s hs], ti as [t i]. simpl. intros Hs.
  pose proof (reachable_advance (length (timers s)) t s Hs) as H1.
  destruct i as [lat lng|n r|]; simpl.
  - destruct (getAddressFromCoordinates _ _ _ _) as [s2 h] eqn:E. simpl.
    replace s2 with (fst (getAddressFromCoordinates toString lat lng
                            (advance toString (length (timers s)) t s)))
      by (by rewrite E).
    by apply (reachable_step _ (Call lat lng)).
  - by apply (reachable_step _ (FetchSettles n r)).
  - done.
Qed.

Lemma reachable_run tis : reachable toString (fst (run toString tis)).
Proof.
  unfold run.
  assert (reachable toString (fst (init (num := num), @nil handle))) as H
    by (by exists []).
  revert H. generalize (init (num := num), @nil handle).
  induction tis as [|ti tis IH]; intros sh H; simpl; [done|].
  by apply IH, reachable_timedStep.
Qed.

End Proofs.

(** * The claims on concrete runs *)

Local Open Scope Z_scope.

(** C1 (as the code has it). The calls that are in the queue at the same time
    are resolved together, with one value: a step either leaves every queued
    resolver queued and pending or resolves all of them with the same value
    and empties the queue, and the steps that resolve them are the success of
    the immediate fetch (with its value) and the settlement of a deferred
    fetch (with its value, [null] if it failed); so two calls that are in the
    queue together have the same outcome ever after.  A queued call leaves its
    own coordinates in [lastArgs], and a fetch started by a timer is a fetch
    for [lastArgs].
    In the run with calls for A at 0 ms, B at 100 ms and C at 300 ms, the
    deferred fetch, for C, is made at 1300 ms; if the fetch for A is still
    unsettled when that fetch settles, there are two fetches, for A and for C,
    and B and C get C's value; if the fetch for A succeeds at 400 ms, B and C
    get A's value, and the second fetch, for C, is still made at 1300 ms.
    A call that is queued after the queue was emptied is not resolved with the
    calls before it: with A at 0 ms, B at 100 ms, the fetch for A succeeding
    at 200 ms and C at 300 ms, B has A's value and C gets the value of the
    deferred fetch for C. *)
Theorem C1_queued_calls_settle_together :
  (∀ (num : Type) (toString : num → string) (s : state) (e : event),
     reachable toString s →
     match e with
     | FetchSettles n r =>
         match findFetch n (inflight s) with
         | Some f =>
             match flushValue (fcont f) r with
             | Some v =>
                 pendingResolvers (step toString s e) = [] ∧
                 ∀ w, w ∈ pendingResolvers s →
                      outcome (step toString s e) (Follows w) = Fulfilled v
             | None =>
                 pendingResolvers (step toString s e) = pendingResolvers s ∧
                 ∀ w, w ∈ pendingResolvers s →
                      outcome (step toString s e) (Follows w) = Pending
             end
         | None => step toString s e = s
         end
     | _ =>
         (∃ ext, pendingResolvers (step toString s e) = pendingResolvers s ++ ext) ∧
         ∀ w, w ∈ pendingResolvers s →
              outcome (step toString s e) (Follows w) = Pending
     end) ∧
  (∀ (num : Type) (toString : num → string) (s : state) (lat lng : num),
     cache s !! cacheKeyOf toString lat lng = None →
     pendingRequests s !! cacheKeyOf toString lat lng = None →
     hasExecutedImmediately s = true →
     lastArgs (fst (getAddressFromCoordinates toString lat lng s)) = Some (lat, lng)) ∧
  (∀ (num : Type) (toString : num → string) (s : state) (n : nat),
     fetchesSince s (timerFires toString n s) = [] ∨
     ∃ lat lng, lastArgs s = Some (lat, lng) ∧
       fetchesSince s (timerFires toString n s) =
         [{| fid := length (fetchLog s); flat := lat; flng := lng;
             fcont := AfterTrailing (cacheKeyOf toString lat lng) |}]) ∧
  (∀ va vc : value,
     observe (run showZ [(0, lookup A); (100, lookup B); (300, lookup C);
                         (1350, Response 1 (Ok vc)); (1400, Response 0 (Ok va));
                         (3000, Idle)])
     = ([Fulfilled va; Fulfilled vc; Fulfilled vc], [keyOf A; keyOf C], [])) ∧
  (∀ va vc : value,
     observe (run showZ [(0, lookup A); (100, lookup B); (300, lookup C);
                         (400, Response 0 (Ok va)); (1299, Idle)])
     = ([Fulfilled va; Fulfilled va; Fulfilled va], [keyOf A], []) ∧
     observe (run showZ [(0, lookup A); (100, lookup B); (300, lookup C);
                         (400, Response 0 (Ok va)); (1350, Response 1 (Ok vc));
                         (3000, Idle)])
     = ([Fulfilled va; Fulfilled va; Fulfilled va], [keyOf A; keyOf C], [])) ∧
  (∀ (num : Type) (toString : num → string) (s : state) (w1 w2 : nat)
     (es : list event),
     reachable toString s →
     w1 ∈ pendingResolvers s → w2 ∈ pendingResolvers s →
     outcome (exec toString es s) (Follows w1) = outcome (exec toString es s) (Follows w2)) ∧
  (∀ va : value,
     observe (run showZ [(0, lookup A); (100, lookup B); (300, lookup C);
                         (400, Response 0 (Ok va)); (1300, Idle)])
     = ([Fulfilled va; Fulfilled va; Fulfilled va], [keyOf A; keyOf C], [1%nat])) ∧
  (∀ va vc : value,
     observe (run showZ [(0, lookup A); (100, lookup B); (200, Response 0 (Ok va));
                         (300, lookup C); (1250, Response 1 (Ok vc))])
     = ([Fulfilled va; Fulfilled va; Fulfilled vc], [keyOf A; keyOf C], [])) ∧
  (observe (run showZ [(0, lookup A); (100, lookup B); (300, lookup C); (1299, Idle)])
   = ([Pending; Pending; Pending], [keyOf A], [0%nat]) ∧
   observe (run showZ [(0, lookup A); (100, lookup B); (300, lookup C); (1300, Idle)])
   = ([Pending; Pending; Pending], [keyOf A; keyOf C], [0%nat; 1%nat])).
Proof.
  split; [|split; [|split; [|split; [|split; [|split; [|split; [|split]]]]]]].
  - intros num toString s e Hr. apply reachable_consistent in Hr.
    pose proof (queue_step toString s e Hr) as H.
    destruct e as [lat lng|n r|n|t].
    + destruct H as [Hext H]. split; [done|].
      intros w Hw. unfold outcome. by rewrite (H w Hw).
    + destruct (findFetch n (inflight s)) as [ft|]; [|done].
      destruct (flushValue (fcont ft) r); destruct H as [Hq H];
        (split; [done|]); intros w Hw; unfold outcome; by rewrite (H w Hw).
    + destruct H as [Hext H]. split; [done|].
      intros w Hw. unfold outcome. by rewrite (H w Hw).
    + destruct H as [Hext H]. split; [done|].
      intros w Hw. unfold outcome. by rewrite (H w Hw).
  - intros num toString s lat lng Hc Hp Hflag.
    by destruct (call_queued toString lat lng s Hc Hp Hflag) as (_ & _ & _ & ? & _).
  - intros num toString s n. apply timerFires_fetches.
  - intros va vc. vm_compute. reflexivity.
  - intros va vc. split; vm_compute; reflexivity.
  - intros num toString s w1 w2 es Hr H1 H2. apply reachable_consistent in Hr.
    apply (together_outcome toString); [by apply consistent_exec|].
    apply (together_exec toString); [done|]. by left.
  - intros va. vm_compute. reflexivity.
  - intros va vc. vm_compute. reflexivity.
  - split; vm_compute; reflexivity.
Qed.

(** The general part of C1 at the state with [B] queued behind [A]: the
    success of the fetch for [A] resolves the queued call for [B] with [A]'s
    value. *)
Lemma C1_queued_calls_settle_together_witness :
  pendingResolvers (step showZ busyAB (FetchSettles 0 (Ok (Some "Smith County")))) = [] ∧
  ∀ w, w ∈ pendingResolvers busyAB →
       outcome (step showZ busyAB (FetchSettles 0 (Ok (Some "Smith County"))))
               (Follows w)
       = Fulfilled (Some "Smith County").
Proof.
  apply (proj1 C1_queued_calls_settle_together Z showZ busyAB
           (FetchSettles 0 (Ok (Some "Smith County")))).
  exists [call A; Clock 100; call B]. reflexivity.
Defined.

(** C1 as stated fails: in its own scenario, with the fetch for A succeeding
    at 400 ms and the one for C at 1350 ms, there are two fetches (A, C), C's
    value is the one in the cache under C's key, and yet B and C have settled
    with A's value. *)
Lemma C1_counterexample :
  let r := run showZ [(0, lookup A); (100, lookup B); (300, lookup C);
                      (400, Response 0 (Ok (Some "address of A")));
                      (1350, Response 1 (Ok (Some "address of C")));
                      (3000, Idle)] in
  fetchedKeys showZ (fst r) = [keyOf A; keyOf C] ∧
  cache (fst r) !! keyOf C = Some (Some "address of C") ∧
  map (outcome (fst r)) (snd r)
    = [Fulfilled (Some "address of A"); Fulfilled (Some "address of A");
       Fulfilled (Some "address of A")] ∧
  map (outcome (fst r)) (drop 1 (snd r))
    ≠ [Fulfilled (Some "address of C"); Fulfilled (Some "address of C")].
Proof. vm_compute. repeat split; discriminate. Qed.

(** C2 as stated fails: A is called at 0 ms and B at 100 ms; the fetch for A
    is slow (it may take up to 5000 ms); at 1100 ms the debounce timer starts
    the deferred fetch for B while the immediate fetch is still in flight. *)
Lemma C2_counterexample :
  let s := fst (run showZ [(0, lookup A); (100, lookup B); (1100, Idle)]) in
  map (λ f, (fid f, isImmediate (fcont f))) (inflight s) = [(0%nat, true); (1%nat, false)] ∧
  fetchedKeys showZ s = [keyOf A; keyOf B] ∧
  ¬ (length (inflight s) ≤ 1)%nat.
Proof. vm_compute. repeat split. lia. Qed.

(** C3 as stated fails: the call for B is queued behind A and resolved with
    A's value at 200 ms; B is not cached by that, so the next call for B at
    250 ms gets a new pending handle, and at 1200 ms, when the slot-release
    timer fires, a fetch for B is made. *)
Lemma C3_counterexample :
  let r1 := run showZ [(0, lookup A); (100, lookup B);
                       (200, Response 0 (Ok (Some "address of A")))] in
  let r2 := run showZ [(0, lookup A); (100, lookup B);
                       (200, Response 0 (Ok (Some "address of A")));
                       (250, lookup B)] in
  let r3 := run showZ [(0, lookup A); (100, lookup B);
                       (200, Response 0 (Ok (Some "address of A")));
                       (250, lookup B); (1200, Idle)] in
  map (outcome (fst r1)) (snd r1)
    = [Fulfilled (Some "address of A"); Fulfilled (Some "address of A")] ∧
  cache (fst r1) !! keyOf B = None ∧
  map (outcome (fst r2)) (snd r2)
    = [Fulfilled (Some "address of A"); Fulfilled (Some "address of A"); Pending] ∧
  fetchedKeys showZ (fst r2) = [keyOf A] ∧
  fetchedKeys showZ (fst r3) = [keyOf A; keyOf B].
Proof. vm_compute. repeat split. Qed.

(** C4 on a run the code can make: A is called at 0 ms and answered at 10 ms;
    B is called at 500 ms and queued; the slot-release timer at 1010 ms starts
    a deferred fetch for B (fetch 1); B is called again at 1020 ms and
    dispatched at once (fetch 2), answered at 1100 ms, which caches B; fetch 1
    is still unsettled at 1500 ms, when the debounce timer of the call at
    500 ms fires and fetches B again, although B is in the cache. *)
Lemma C4_cached_key_is_fetched_again :
  let before := fst (run showZ [(0, lookup A); (10, Response 0 (Ok (Some "address of A")));
                                (500, lookup B); (1020, lookup B);
                                (1100, Response 2 (Ok (Some "address of B")));
                                (1499, Idle)]) in
  let after := fst (run showZ [(0, lookup A); (10, Response 0 (Ok (Some "address of A")));
                               (500, lookup B); (1020, lookup B);
                               (1100, Response 2 (Ok (Some "address of B")));
                               (1500, Idle)]) in
  cache before !! keyOf B = Some (Some "address of B") ∧
  fetchedKeys showZ before = [keyOf A; keyOf B; keyOf B] ∧
  map (λ f, (fid f, contKey (fcont f))) (fetchesSince before after) = [(3%nat, keyOf B)].
Proof. vm_compute. repeat split. Qed.

(** C5 as stated fails: with the run of C4 but fetch 2 (the immediate
    dispatch for B) failing at 1100 ms, the entry for B is in the table and
    its handle is rejected; the deferred fetch for B (fetch 1) settles at
    1200 ms and its cleanup removes the entry; the call for B at 1600 ms is
    answered from the cache, not with the failed handle. *)
Lemma C5_counterexample :
  let r1 := run showZ [(0, lookup A); (10, Response 0 (Ok (Some "address of A")));
                       (500, lookup B); (1020, lookup B); (1100, Response 2 Failed)] in
  let r2 := run showZ [(0, lookup A); (10, Response 0 (Ok (Some "address of A")));
                       (500, lookup B); (1020, lookup B); (1100, Response 2 Failed);
                       (1200, Response 1 (Ok (Some "address of B")))] in
  let r3 := run showZ [(0, lookup A); (10, Response 0 (Ok (Some "address of A")));
                       (500, lookup B); (1020, lookup B); (1100, Response 2 Failed);
                       (1200, Response 1 (Ok (Some "address of B")));
                       (1600, lookup B)] in
  pendingRequests (fst r1) !! keyOf B = Some 2%nat ∧
  outcome (fst r1) (Follows 2) = Rejected ∧
  pendingRequests (fst r2) !! keyOf B = None ∧
  snd r3 = [Follows 0; Follows 1; Follows 2; Resolved (Some "address of B")].
Proof. vm_compute. repeat split. Qed.

(** C7 as stated fails: A is called at 0 ms, B at 100 ms, the fetch for A
    fails at 150 ms.  The debounce timer fires first, at 1100 ms: it starts
    the deferred fetch for B but leaves the queue and [lastArgs] as they are.
    The slot-release timer fires at 1150 ms, with that fetch unsettled: it
    frees the slot and starts a second fetch for B. *)
Lemma C7_counterexample :
  let s1 := fst (run showZ [(0, lookup A); (100, lookup B); (150, Response 0 Failed);
                            (1100, Idle)]) in
  let s2 := fst (run showZ [(0, lookup A); (100, lookup B); (150, Response 0 Failed);
                            (1100, Idle); (1150, Idle)]) in
  fetchedKeys showZ s1 = [keyOf A; keyOf B] ∧
  pendingResolvers s1 = [1%nat] ∧ lastArgs s1 = Some B ∧
  hasExecutedImmediately s1 = true ∧
  map cb (timers s1) = [SlotRelease] ∧
  fetchedKeys showZ s2 = [keyOf A; keyOf B; keyOf B] ∧
  hasExecutedImmediately s2 = false ∧
  timers s2 = [].
Proof. vm_compute. repeat split. Qed.


(** ** The theorems at concrete states *)


Lemma C10_queued_handle_never_rejects_witness :
  let es := [Clock 150; FetchSettles 0 Failed; Clock 1100; TimerFires 0;
             Clock 1150; TimerFires 1; Clock 1200; FetchSettles 1 Failed;
             FetchSettles 2 Failed] in
  let r := getAddressFromCoordinates showZ (fst B) (snd B) busyA in
  outcome (exec showZ es (fst r)) (snd r) ≠ Rejected ∧
  (outcome (exec showZ es (fst r)) (snd r) = Pending ∨
   ∃ v : option string, outcome (exec showZ es (fst r)) (snd r) = Fulfilled v).
Proof.
  intros es.
  apply (C10_queued_handle_never_rejects showZ busyA (fst B) (snd B) es).
  - exists [call A; Clock 100]. reflexivity.
  - reflexivity.
  - reflexivity.
  - reflexivity.
Defined.

Lemma C3_cached_key_is_served_from_cache_witness :
  let s1 := fetchSettles 0 (Ok (Some "Smith County, Kansas")) busyAB in
  let es := [Clock 300; call B; call A; Clock 1100; TimerFires 0] in
  getAddressFromCoordinates showZ (fst A) (snd A) s1
    = (s1, Resolved (Some "Smith County, Kansas")) ∧
  (∃ v', getAddressFromCoordinates showZ (fst A) (snd A) (exec showZ es s1)
         = (exec showZ es s1, Resolved v')) ∧
  (∀ r k', k' ≠ keyOf A → cache (fetchSettles 0 r busyAB) !! k' = cache busyAB !! k').
Proof.
  intros s1 es.
  apply (C3_cached_key_is_served_from_cache showZ busyAB 0 fetchA
           (Some "Smith County, Kansas") (fst A) (snd A) es).
  - reflexivity.
  - reflexivity.
Defined.

Lemma C5_failed_entry_stays_witness :
  let s1 := fetchSettles 0 Failed busyAB in
  let es := [Clock 200; call A; Clock 1100; TimerFires 0; Clock 1150;
             FetchSettles 1 (Ok (Some "New York")); call A] in
  pendingRequests s1 = pendingRequests busyAB ∧
  pendingRequests (exec showZ es s1) !! keyOf A = Some 0%nat ∧
  outcome (exec showZ es s1) (Follows 0) = Rejected ∧
  getAddressFromCoordinates showZ (flat fetchA) (flng fetchA) (exec showZ es s1)
    = (exec showZ es s1, Follows 0).
Proof.
  intros s1 es.
  apply (C5_failed_entry_stays showZ busyAB 0 fetchA (keyOf A) 0 es).
  - exists [call A; Clock 100; call B]. reflexivity.
  - reflexivity.
  - reflexivity.
  - reflexivity.
  - vm_compute. repeat split; discriminate.
Defined.

Lemma C7_timer_race_witness :
  (hasExecutedImmediately (timerFires showZ 0 cooldownA) = false ∧
   fetchLog (timerFires showZ 0 cooldownA) = fetchLog cooldownA) ∧
  (fetchesSince armedB (timerFires showZ 0 armedB) = [fetchB] ∧
   pendingResolvers (timerFires showZ 0 armedB) = pendingResolvers armedB ∧
   lastArgs (timerFires showZ 0 armedB) = Some B ∧
   ∀ r n',
     pendingResolvers (fetchSettles 1 r (timerFires showZ 0 armedB)) = [] ∧
     lastArgs (fetchSettles 1 r (timerFires showZ 0 armedB)) = None ∧
     fetchLog (timerFires showZ n' (fetchSettles 1 r (timerFires showZ 0 armedB)))
       = fetchLog (fetchSettles 1 r (timerFires showZ 0 armedB))).
Proof.
  split.
  - assert (reachable showZ cooldownA) as Hr.
    { exists [call A; Clock 10; FetchSettles 0 (Ok (Some "Smith County, Kansas"));
              Clock 1010]. reflexivity. }
    destruct (proj1 (C7_timer_race showZ cooldownA 0
                       {| tid := 0; due := 1010; cb := SlotRelease |} Hr eq_refl)
                eq_refl) as (Hlog & _ & _ & _ & _ & _ & _ & Hflag).
    split; [exact Hflag|exact Hlog].
  - assert (reachable showZ armedB) as Hr.
    { exists [call A; Clock 100; call B; Clock 150; FetchSettles 0 Failed;
              Clock 1100]. reflexivity. }
    refine (proj2 (C7_timer_race showZ armedB 0
                     {| tid := 0; due := 1100; cb := Debounce |} Hr eq_refl)
              (fst B) (snd B) eq_refl (or_introl eq_refl)).
Defined.

Lemma C2_one_immediate_dispatch_witness :
  (immediateInFlight busyAB ≤ 1)%nat ∧
  ((0 < slotTimersPending busyAB)%nat → immediateInFlight busyAB = 0%nat) ∧
  (hasExecutedImmediately busyAB = false → immediateInFlight busyAB = 0%nat).
Proof.
  exact (C2_one_immediate_dispatch showZ [call A; Clock 100; call B]).
Defined.

Local Close Scope Z_scope.

(** * Beyond the claims: more of the coalescer *)

Section MoreProofs.
Context {num : Type} (toString : num → string).
Implicit Types (s : state (num := num)) (f : fetch (num := num)).

Lemma NoDup_fmap_filter {A B} (g : A → B) (P : A → Prop) `{!∀ x, Decision (P x)}
    (l : list A) :
  NoDup (g <$> l) → NoDup (g <$> filter P l).
Proof.
  induction l as [|x l IH]; [done|]. rewrite fmap_cons, NoDup_cons.
  intros [Hx Hl]. destruct (decide (P x)).
  - rewrite filter_cons_True by done. rewrite fmap_cons, NoDup_cons.
    split; [|by apply IH]. intros (y & Hy & Hin)%list_elem_of_fmap.
    apply list_elem_of_filter in Hin as [_ Hin].
    apply Hx. rewrite Hy. by apply list_elem_of_fmap_2.
  - rewrite filter_cons_False by done. by apply IH.
Qed.

Lemma NoDup_fmap_snoc {A} (g : A → nat) (l : list A) (x : A) :
  NoDup (g <$> l) → (∀ y, y ∈ l → g y < g x) → NoDup (g <$> (l ++ [x])).
Proof.
  intros Hl Hlt. rewrite fmap_app. apply NoDup_app. split; [done|]. split.
  - intros n (y & -> & Hy)%list_elem_of_fmap Hin.
    apply list_elem_of_singleton in Hin. specialize (Hlt y Hy). simpl in Hin. lia.
  - apply NoDup_singleton.
Qed.

Lemma identified_init : identified (init (num := num)).
Proof.
  split; simpl; try apply NoDup_nil_2; intros t Ht; by apply not_elem_of_nil in Ht.
Qed.

Lemma identified_fetchAddress lat lng k s :
  (∀ f, f ∈ inflight s → fid f < length (fetchLog s)) →
  identified s → identified (fetchAddress lat lng k s).
Proof.
  intros C [Ht Hi Hf Hd]. split; simpl; try done.
  apply NoDup_fmap_snoc; [done|]. intros y Hy. simpl. by apply C.
Qed.

Lemma identified_executeTrailing s :
  (∀ f, f ∈ inflight s → fid f < length (fetchLog s)) →
  identified s → identified (executeTrailing toString s).
Proof.
  intros C I. unfold executeTrailing.
  destruct (lastArgs s) as [[lat lng]|]; [by apply identified_fetchAddress|done].
Qed.

Lemma identified_call lat lng s :
  consistent toString s → identified s →
  identified (fst (getAddressFromCoordinates toString lat lng s)).
Proof.
  intros C [Ht Hi Hf Hd]. unfold getAddressFromCoordinates.
  destruct (cache s !! _); [by split|].
  destruct (pendingRequests s !! _); [by split|].
  destruct (hasExecutedImmediately s) eqn:Hflag; simpl.
  - destruct (debounceTimer s) as [i|] eqn:Hdt; simpl; split; simpl; try done.
    + apply NoDup_fmap_snoc; [by apply NoDup_fmap_filter|].
      intros y [_ Hy]%list_elem_of_filter. simpl. by apply Hi.
    + intros t [[_ Hin]%list_elem_of_filter| ->%list_elem_of_singleton]%elem_of_app;
        [apply Hi in Hin|simpl]; lia.
    + intros t [[Hne Hin]%list_elem_of_filter| ->%list_elem_of_singleton]%elem_of_app Hcb;
        [|done]. specialize (Hd t Hin Hcb). congruence.
    + apply NoDup_fmap_snoc; [done|]. intros y Hy. simpl. by apply Hi.
    + intros t [Hin| ->%list_elem_of_singleton]%elem_of_app;
        [apply Hi in Hin|simpl]; lia.
    + intros t [Hin| ->%list_elem_of_singleton]%elem_of_app Hcb; [|done].
      specialize (Hd t Hin Hcb). congruence.
  - split; simpl; try done.
    apply NoDup_fmap_snoc; [done|]. intros y Hy. simpl. by apply (fid_logged _ _ C).
Qed.

Lemma identified_fetchSettles n r s : identified s → identified (fetchSettles n r s).
Proof.
  intros [Ht Hi Hf Hd]. unfold fetchSettles.
  destruct (findFetch n (inflight s)) as [ft|]; [|by split].
  destruct (fcont ft) as [k p|k]; unfold immediateSettled, trailingSettled;
    destruct r as [v|]; split; simpl;
    try (by apply NoDup_fmap_filter); try done;
    try (apply NoDup_fmap_snoc; [done|]; intros y Hy; simpl; by apply Hi);
    try (intros t [Hin| ->%list_elem_of_singleton]%elem_of_app;
         [apply Hi in Hin|simpl]; lia);
    try (intros t [Hin| ->%list_elem_of_singleton]%elem_of_app Hcb;
         [by apply Hd|done]).
Qed.

Lemma identified_timerFires n s :
  consistent toString s → identified s → identified (timerFires toString n s).
Proof.
  intros C [Ht Hi Hf Hd]. unfold timerFires.
  destruct (findTimer n (timers s)) as [tm|]; [|by split].
  assert (identified (set_timers (filter (λ x, tid x ≠ n)) s)) as I1.
  { split; simpl; try done.
    - by apply NoDup_fmap_filter.
    - intros t [_ Hin]%list_elem_of_filter. by apply Hi.
    - intros t [_ Hin]%list_elem_of_filter. by apply Hd. }
  destruct (cb tm); unfold slotReleaseFired, debounceFired.
  - assert (identified (set_hasExecutedImmediately false
                          (set_timers (filter (λ x, tid x ≠ n)) s))) as I2
      by (destruct I1; by split).
    destruct (_ && _); [|done].
    apply identified_executeTrailing; [|done]. simpl. apply (fid_logged _ _ C).
  - apply identified_executeTrailing; [|done]. simpl. apply (fid_logged _ _ C).
Qed.

Lemma identified_step s e :
  consistent toString s → identified s → identified (step toString s e).
Proof.
  intros C I. destruct e as [lat lng|n r|n|t]; simpl.
  - by apply identified_call.
  - by apply identified_fetchSettles.
  - by apply identified_timerFires.
  - destruct I. by split.
Qed.

Lemma identified_exec es s :
  consistent toString s → identified s → identified (exec toString es s).
Proof.
  revert s. induction es as [|e es IH]; intros s C I; simpl; [done|].
  apply IH; [by apply consistent_step|by apply identified_step].
Qed.

Lemma reachable_identified s : reachable toString s → identified s.
Proof.
  intros [es ->]. apply identified_exec; [apply consistent_init|apply identified_init].
Qed.

Lemma filter_none {A} (P : A → Prop) `{!∀ x, Decision (P x)} (l : list A) :
  (∀ x, x ∈ l → ¬ P x) → filter P l = [].
Proof.
  induction l as [|x l IH]; intros Hno; [done|].
  rewrite filter_cons_False by (apply Hno; by left).
  apply IH. intros y Hy. apply Hno. by right.
Qed.

Lemma NoDup_fmap_eq {A B} (g : A → B) (l : list A) x y :
  NoDup (g <$> l) → x ∈ l → y ∈ l → g x = g y → x = y.
Proof.
  induction l as [|z l IH]; intros Hnd Hx Hy Hg; [by apply not_elem_of_nil in Hx|].
  rewrite fmap_cons, NoDup_cons in Hnd. destruct Hnd as [Hz Hnd].
  apply elem_of_cons in Hx as [->|Hx]; apply elem_of_cons in Hy as [->|Hy].
  - done.
  - exfalso. apply Hz. rewrite Hg. by apply list_elem_of_fmap_2.
  - exfalso. apply Hz. rewrite <- Hg. by apply list_elem_of_fmap_2.
  - by apply IH.
Qed.

Lemma findFetch_elem_of s f :
  identified s → f ∈ inflight s → findFetch (fid f) (inflight s) = Some f.
Proof.
  intros I Hin. unfold findFetch.
  destruct (list_find (λ x, fid x = fid f) (inflight s)) as [[i x]|] eqn:E; simpl.
  - apply list_find_Some in E as (Hi & Hx & _).
    f_equal. apply (NoDup_fmap_eq fid (inflight s)); [apply I| |done|done].
    by eapply list_elem_of_lookup_2.
  - apply list_find_None in E. rewrite Forall_forall in E. by destruct (E f Hin).
Qed.

Lemma findTimer_elem_of s t :
  identified s → t ∈ timers s → findTimer (tid t) (timers s) = Some t.
Proof.
  intros I Hin. unfold findTimer.
  destruct (list_find (λ x, tid x = tid t) (timers s)) as [[i x]|] eqn:E; simpl.
  - apply list_find_Some in E as (Hi & Hx & _).
    f_equal. apply (NoDup_fmap_eq tid (timers s)); [apply I| |done|done].
    by eapply list_elem_of_lookup_2.
  - apply list_find_None in E. rewrite Forall_forall in E. by destruct (E t Hin).
Qed.

(** X3. Trailing-edge debounce.  At most one debounce timer is pending at any
    time.  A call that is queued cancels the pending one and arms a new one:
    after it, the only pending debounce timer is the one just created, due
    [DEBOUNCE_DELAY] after the call, and [this.debounceTimer] names it. *)
Theorem X3_one_debounce_timer s lat lng :
  reachable toString s →
  length (filter (λ t, isDebounce t = true) (timers s)) ≤ 1 ∧
  (cache s !! cacheKeyOf toString lat lng = None →
   pendingRequests s !! cacheKeyOf toString lat lng = None →
   hasExecutedImmediately s = true →
   filter (λ t, isDebounce t = true)
     (timers (fst (getAddressFromCoordinates toString lat lng s)))
   = [{| tid := timerSeq s; due := (now s + DEBOUNCE_DELAY)%Z; cb := Debounce |}] ∧
   debounceTimer (fst (getAddressFromCoordinates toString lat lng s))
   = Some (timerSeq s)).
Proof.
  intros Hr. pose proof (reachable_identified s Hr) as [Ht Hi Hf Hd].
  assert (∀ i, debounceTimer s = Some i →
               filter (λ t, isDebounce t = true)
                 (filter (λ x, tid x ≠ i) (timers s)) = []) as Hclear.
  { intros i Hi'. apply filter_none.
    intros t [Hne Hin]%list_elem_of_filter Hdeb.
    unfold isDebounce in Hdeb. destruct (cb t) eqn:Hcb; [done|].
    specialize (Hd t Hin Hcb). congruence. }
  split.
  - destruct (debounceTimer s) as [i|] eqn:Hdt.
    + (* every pending debounce timer has the id [i] *)
      clear Hclear. revert Ht Hd. generalize (timers s) as l.
      induction l as [|x l IH]; intros Hnd Hrec; [simpl; lia|].
      rewrite fmap_cons, NoDup_cons in Hnd. destruct Hnd as [Hx Hnd].
      destruct (decide (isDebounce x = true)) as [Hdx|Hdx].
      * rewrite filter_cons_True by done.
        rewrite (filter_none _ l); [simpl; lia|].
        intros y Hy Hdy. apply Hx.
        assert (tid y = tid x) as <-.
        { unfold isDebounce in Hdx, Hdy.
          destruct (cb x) eqn:Hcx; [done|]. destruct (cb y) eqn:Hcy; [done|].
          pose proof (Hrec x (list_elem_of_here _ _) Hcx).
          pose proof (Hrec y (list_elem_of_further _ _ _ Hy) Hcy). congruence. }
        by apply list_elem_of_fmap_2.
      * rewrite filter_cons_False by done. apply IH; [done|].
        intros t Hin. apply Hrec. by right.
    + rewrite filter_none; [simpl; lia|].
      intros t Hin Hdeb. unfold isDebounce in Hdeb.
      destruct (cb t) eqn:Hcb; [done|]. by specialize (Hd t Hin Hcb).
  - intros Hc Hp Hflag. unfold getAddressFromCoordinates.
    rewrite Hc, Hp, Hflag. simpl.
    destruct (debounceTimer s) as [i|] eqn:Hdt; simpl.
    + rewrite filter_app, (Hclear i eq_refl). by rewrite filter_cons_True.
    + rewrite filter_app, filter_none; [by rewrite filter_cons_True|].
      intros t Hin Hdeb. unfold isDebounce in Hdeb.
      destruct (cb t) eqn:Hcb; [done|]. by specialize (Hd t Hin Hcb).
Qed.

Lemma attended_init : attended (init (num := num)).
Proof. intros H. done. Qed.

Lemma attended_step s e :
  identified s → attended s → attended (step toString s e).
Proof.
  intros I Ha. destruct e as [lat lng|n r|n|t]; simpl.
  - unfold getAddressFromCoordinates.
    destruct (cache s !! _); [done|]. destruct (pendingRequests s !! _); [done|].
    destruct (hasExecutedImmediately s); simpl.
    + intros _. destruct (debounceTimer s); simpl;
        (split; [by eexists|]); left; eexists;
        (split; [apply elem_of_app; right; by apply list_elem_of_singleton|done]).
    + intros Hne. destruct (Ha Hne) as [Hl [Htm|(f & Hf & Hk)]].
      * split; [done|]. by left.
      * split; [done|]. right. exists f. split; [|done]. apply elem_of_app. by left.
  - unfold fetchSettles. destruct (findFetch n (inflight s)) as [ft|] eqn:Hfind; [|done].
    apply findFetch_Some in Hfind as [Hin Hfid].
    destruct (fcont ft) as [k p|k] eqn:Hk; unfold immediateSettled, trailingSettled;
      destruct r as [v|]; simpl; try (intros H; by destruct H).
    intros Hne. destruct (Ha Hne) as [Hl [(t & Ht & Hcb)|(f & Hf & Hkf)]].
    + split; [done|]. left. exists t. split; [|done]. apply elem_of_app. by left.
    + split; [done|]. right. exists f. split; [|done].
      apply list_elem_of_filter. split; [|done]. intros Heq.
      assert (f = ft) as ->.
      { apply (NoDup_fmap_eq fid (inflight s)); [apply I|done|done|congruence]. }
      by rewrite Hk in Hkf.
  - destruct (findTimer n (timers s)) as [tm|] eqn:Hfind;
      [|unfold timerFires; by rewrite Hfind].
    unfold attended. destruct (timerFires_frame toString n s) as (_ & -> & _ & _ & ->).
    intros Hne. destruct (Ha Hne) as [[[lat lng] Hl] _]. split; [by eexists|].
    right. unfold timerFires. rewrite Hfind.
    destruct (cb tm); unfold slotReleaseFired, debounceFired, executeTrailing; simpl;
      rewrite Hl.
    + rewrite bool_decide_true
        by (destruct (pendingResolvers s); [done|simpl; lia]).
      rewrite bool_decide_true by (by eexists). simpl.
      eexists. split; [apply elem_of_app; right; by apply list_elem_of_singleton|done].
    + simpl. eexists.
      split; [apply elem_of_app; right; by apply list_elem_of_singleton|done].
  - done.
Qed.

Lemma reachable_attended s : reachable toString s → attended s.
Proof.
  intros [es ->].
  assert (consistent toString (init (num := num)) ∧ identified (init (num := num)) ∧
          attended (init (num := num))) as H
    by (split; [apply consistent_init|split; [apply identified_init|apply attended_init]]).
  revert H. generalize (init (num := num)).
  induction es as [|e es IH]; intros s (C & I & Ha); simpl; [done|].
  apply IH. split; [by apply consistent_step|].
  split; [by apply identified_step|by apply attended_step].
Qed.

(** The settlement of a deferred fetch, success or failure, empties the queue
    and fulfils every queued caller. *)
Lemma deferred_settles_queue s f r :
  reachable toString s → f ∈ inflight s → isImmediate (fcont f) = false →
  pendingResolvers (fetchSettles (fid f) r s) = [] ∧
  ∀ w, w ∈ pendingResolvers s →
       ∃ v, outcome (fetchSettles (fid f) r s) (Follows w) = Fulfilled v.
Proof.
  intros Hr Hin Hk.
  pose proof (findFetch_elem_of s f (reachable_identified s Hr) Hin) as Hfind.
  pose proof (queue_step toString s (FetchSettles (fid f) r)
                (reachable_consistent toString s Hr)) as Hq.
  simpl in Hq. rewrite Hfind in Hq.
  destruct (fcont f) as [k p|k]; [done|].
  destruct r as [v|]; simpl in Hq; destruct Hq as [Hempty Hall];
    (split; [done|]); intros w Hw; eexists; unfold outcome; by rewrite (Hall w Hw).
Qed.

(** X4. No queued caller is left behind.  In every reachable state with queued
    resolvers, [lastArgs] is set and, now or once the pending debounce timer
    has fired, a deferred fetch is in flight; the settlement of that fetch,
    success or failure, empties the queue and fulfils every queued caller. *)
Theorem X4_queued_callers_are_attended s :
  reachable toString s →
  pendingResolvers s ≠ [] →
  is_Some (lastArgs s) ∧
  ∃ s' f,
    (s' = s ∨ ∃ t, t ∈ timers s ∧ cb t = Debounce ∧ s' = timerFires toString (tid t) s) ∧
    pendingResolvers s' = pendingResolvers s ∧
    f ∈ inflight s' ∧ isImmediate (fcont f) = false ∧
    ∀ r, pendingResolvers (fetchSettles (fid f) r s') = [] ∧
         ∀ w, w ∈ pendingResolvers s →
              ∃ v, outcome (fetchSettles (fid f) r s') (Follows w) = Fulfilled v.
Proof.
  intros Hr Hne. destruct (reachable_attended s Hr Hne) as [Hl Hcase].
  split; [done|]. destruct Hcase as [(t & Ht & Hcb)|(f & Hf & Hk)].
  - pose proof (reachable_step toString s (TimerFires (tid t)) Hr) as Hr'.
    simpl in Hr'.
    destruct (timerFires_frame toString (tid t) s) as (_ & Hq & _).
    assert (∃ f, f ∈ inflight (timerFires toString (tid t) s) ∧
                 isImmediate (fcont f) = false) as (f & Hf & Hk).
    { unfold timerFires.
      rewrite (findTimer_elem_of s t (reachable_identified s Hr) Ht), Hcb.
      unfold debounceFired, executeTrailing. simpl.
      destruct Hl as [[lat lng] Hl]. rewrite Hl. simpl.
      eexists. split; [apply elem_of_app; right; by apply list_elem_of_singleton|done]. }
    exists (timerFires toString (tid t) s), f.
    split; [right; by exists t|]. split; [done|]. split; [done|]. split; [done|].
    intros r. rewrite <- Hq. by apply deferred_settles_queue.
  - exists s, f. split; [by left|]. split; [done|]. split; [done|]. split; [done|].
    intros r. by apply deferred_settles_queue.
Qed.

(** ** The quiet window *)

Lemma onlyDeferredSince_refl s : onlyDeferredSince s s.
Proof. exists []. by rewrite app_nil_r. Qed.

Lemma onlyDeferredSince_same s s' : fetchLog s' = fetchLog s → onlyDeferredSince s s'.
Proof. intros H. exists []. by rewrite app_nil_r. Qed.

Lemma onlyDeferredSince_trans s1 s2 s3 :
  onlyDeferredSince s1 s2 → onlyDeferredSince s2 s3 → onlyDeferredSince s1 s3.
Proof.
  intros (e1 & H1 & F1) (e2 & H2 & F2). exists (e1 ++ e2).
  split; [by rewrite H2, H1, app_assoc|by apply Forall_app].
Qed.

Lemma held_after_settle s n f k p r :
  reachable toString s →
  findFetch n (inflight s) = Some f → fcont f = AfterImmediate k p →
  slotHeldUntil (now s + DEBOUNCE_DELAY) (fetchSettles n r s) ∧
  now (fetchSettles n r s) = now s.
Proof.
  intros Hr Hfind Hk. pose proof (reachable_consistent toString s Hr) as C.
  destruct C as [Hq Hi Hone Hfree Hpc Hkey Hlog].
  pose proof Hfind as [Hin Hfid]%findFetch_Some.
  assert (immediateInFlight (set_inflight (filter (λ x, fid x ≠ n)) s)
          < immediateInFlight s) as Hlt.
  { unfold immediateInFlight. simpl.
    apply (count_filter_lt _ _ _ f); [done|by rewrite Hk|]. by intros []. }
  assert (hasExecutedImmediately s = true) as Hflag.
  { destruct (hasExecutedImmediately s); [done|]. destruct (Hfree eq_refl). lia. }
  assert (∀ t, t ∈ timers s → cb t ≠ SlotRelease) as Hnoslot.
  { intros t Ht Hcb.
    apply (count_zero_notin (λ t, isSlotRelease t = true) (timers s) t); [|done|].
    - unfold slotTimersPending in Hone. lia.
    - unfold isSlotRelease. by rewrite Hcb. }
  unfold fetchSettles. rewrite Hfind, Hk. unfold immediateSettled, slotHeldUntil.
  destruct r as [v|]; simpl; (split; [|done]); (split; [done|]);
    (split; [unfold immediateInFlight in *; simpl in *; lia|]);
    intros t [Ht| ->%list_elem_of_singleton]%elem_of_app Hcb;
    try (by destruct (Hnoslot t Ht)); simpl; lia.
Qed.

Lemma held_call T lat lng s :
  slotHeldUntil T s →
  slotHeldUntil T (fst (getAddressFromCoordinates toString lat lng s)) ∧
  fetchLog (fst (getAddressFromCoordinates toString lat lng s)) = fetchLog s.
Proof.
  intros (Hflag & Him & Hdue). unfold getAddressFromCoordinates.
  destruct (cache s !! _); [done|]. destruct (pendingRequests s !! _); [done|].
  rewrite Hflag. simpl. split; [|by destruct (debounceTimer s)].
  unfold slotHeldUntil.
  destruct (debounceTimer s) as [i|]; simpl; (split; [done|]); (split; [done|]).
  - intros t [[_ Ht]%list_elem_of_filter| ->%list_elem_of_singleton]%elem_of_app Hcb;
      [by apply Hdue|done].
  - intros t [Ht| ->%list_elem_of_singleton]%elem_of_app Hcb; [by apply Hdue|done].
Qed.

Lemma held_settle T n r s :
  slotHeldUntil T s →
  slotHeldUntil T (fetchSettles n r s) ∧ fetchLog (fetchSettles n r s) = fetchLog s.
Proof.
  intros (Hflag & Him & Hdue). unfold fetchSettles.
  destruct (findFetch n (inflight s)) as [ft|] eqn:Hfind; [|done].
  apply findFetch_Some in Hfind as [Hin _].
  destruct (fcont ft) as [k p|k] eqn:Hk.
  - exfalso.
    apply (count_zero_notin (λ f, isImmediate (fcont f) = true) (inflight s) ft);
      [done|done|by rewrite Hk].
  - unfold trailingSettled, slotHeldUntil.
    assert (immediateInFlight (set_inflight (filter (λ x, fid x ≠ n)) s) = 0) as H0.
    { unfold immediateInFlight in *. simpl.
      pose proof (count_filter_le (λ f, isImmediate (fcont f) = true)
                    (λ x, fid x ≠ n) (inflight s)). lia. }
    destruct r as [v|]; simpl; (split; [|done]); (split; [done|]); (split; [|done]);
      unfold immediateInFlight in *; simpl in *; done.
Qed.

Lemma held_timer T x s :
  identified s → slotHeldUntil T s → x ∈ timers s → (due x < T)%Z →
  slotHeldUntil T (timerFires toString (tid x) s) ∧
  onlyDeferredSince s (timerFires toString (tid x) s).
Proof.
  intros I (Hflag & Him & Hdue) Hx Hlt.
  assert (cb x = Debounce) as Hcb.
  { destruct (cb x) eqn:Hcb; [|done]. specialize (Hdue x Hx Hcb). lia. }
  unfold timerFires. rewrite (findTimer_elem_of s x I Hx), Hcb.
  unfold debounceFired, executeTrailing. simpl.
  destruct (lastArgs s) as [[lat lng]|]; simpl.
  - split.
    + unfold slotHeldUntil. simpl. split; [done|]. split.
      * unfold immediateInFlight in *. simpl.
        rewrite filter_app, length_app, Him. done.
      * intros t [_ Ht]%list_elem_of_filter. by apply Hdue.
    + unfold onlyDeferredSince. simpl. eexists. split; [reflexivity|].
      by apply Forall_singleton.
  - split; [|exists []; simpl; by rewrite app_nil_r].
    unfold slotHeldUntil. simpl. split; [done|]. split; [done|].
    intros t [_ Ht]%list_elem_of_filter. by apply Hdue.
Qed.

Lemma held_advance T fuel t s :
  (t < T)%Z → reachable toString s → slotHeldUntil T s →
  slotHeldUntil T (advance toString fuel t s) ∧
  onlyDeferredSince s (advance toString fuel t s).
Proof.
  intros Ht. revert s. induction fuel as [|fuel IH]; intros s Hr Hh; simpl.
  - split; [done|by apply onlyDeferredSince_same].
  - destruct (nextDue t s) as [x|] eqn:Hnext;
      [|split; [done|by apply onlyDeferredSince_same]].
    unfold nextDue in Hnext.
    destruct (earliest (timers s)) as [y|] eqn:Hy; [|done].
    case_bool_decide; [|done]. injection Hnext as ->.
    apply earliest_elem_of in Hy.
    pose proof (reachable_step toString s (Clock (due x)) Hr) as Hr1. simpl in Hr1.
    assert (slotHeldUntil T (set_now (due x) s)) as Hh1 by done.
    destruct (held_timer T x (set_now (due x) s)
                (reachable_identified _ Hr1) Hh1 Hy) as [Hh2 Hd2]; [lia|].
    pose proof (reachable_step toString _ (TimerFires (tid x)) Hr1) as Hr2.
    simpl in Hr2. destruct (IH _ Hr2 Hh2) as [Hh3 Hd3].
    split; [done|]. eapply onlyDeferredSince_trans; [|exact Hd3].
    eapply onlyDeferredSince_trans; [|exact Hd2]. by apply onlyDeferredSince_same.
Qed.

Lemma held_timedStep T sh ti :
  (fst ti < T)%Z → reachable toString (fst sh) → slotHeldUntil T (fst sh) →
  slotHeldUntil T (fst (timedStep toString sh ti)) ∧
  onlyDeferredSince (fst sh) (fst (timedStep toString sh ti)).
Proof.
  destruct sh as [s hs], ti as [t i]. simpl. intros Ht Hr Hh.
  destruct (held_advance T (length (timers s)) t s Ht Hr Hh) as [Hh1 Hd1].
  destruct i as [lat lng|n r|]; simpl.
  - destruct (held_call T lat lng _ Hh1) as [Hh2 Hlog].
    destruct (getAddressFromCoordinates _ _ _ _) as [s2 h]. simpl in *.
    split; [done|]. destruct Hd1 as (ext & He & Hf). exists ext. by rewrite Hlog.
  - destruct (held_settle T n r _ Hh1) as [Hh2 Hlog].
    split; [done|]. destruct Hd1 as (ext & He & Hf). exists ext. by rewrite Hlog.
  - done.
Qed.

Lemma held_runFrom T tis sh :
  Forall (λ ti, (fst ti < T)%Z) tis →
  reachable toString (fst sh) → slotHeldUntil T (fst sh) →
  slotHeldUntil T (fst (runFrom toString sh tis)) ∧
  onlyDeferredSince (fst sh) (fst (runFrom toString sh tis)).
Proof.
  revert sh. induction tis as [|ti tis IH]; intros sh Hall Hr Hh; simpl.
  - split; [done|apply onlyDeferredSince_refl].
  - apply Forall_cons in Hall as [Hti Hall].
    destruct (held_timedStep T sh ti Hti Hr Hh) as [Hh1 Hd1].
    destruct (IH (timedStep toString sh ti) Hall
                (reachable_timedStep toString sh ti Hr) Hh1) as [Hh2 Hd2].
    split; [done|]. by eapply onlyDeferredSince_trans.
Qed.

(** X1. The rate limit.  When the immediate fetch settles at clock [now],
    whatever its result, then in any continuation of the run by calls,
    responses and timers due, all before [now + DEBOUNCE_DELAY], no call is
    dispatched at once: the flag stays set and every fetch started in that
    window is a deferred one. *)
Theorem X1_rate_limit s n f k p r hs tis :
  reachable toString s →
  findFetch n (inflight s) = Some f →
  fcont f = AfterImmediate k p →
  Forall (λ ti, (fst ti < now s + DEBOUNCE_DELAY)%Z) tis →
  hasExecutedImmediately (fst (runFrom toString (fetchSettles n r s, hs) tis)) = true ∧
  Forall (λ g, isImmediate (fcont g) = false)
    (fetchesSince (fetchSettles n r s)
       (fst (runFrom toString (fetchSettles n r s, hs) tis))).
Proof.
  intros Hr Hfind Hk Hall.
  destruct (held_after_settle s n f k p r Hr Hfind Hk) as [Hh _].
  pose proof (reachable_step toString s (FetchSettles n r) Hr) as Hr1. simpl in Hr1.
  destruct (held_runFrom _ tis (fetchSettles n r s, hs) Hall Hr1 Hh)
    as [(Hflag & _) (ext & Hlog & Hext)].
  split; [done|]. unfold fetchesSince. simpl in Hlog. rewrite Hlog.
  by rewrite drop_app_length.
Qed.

Lemma earliest_None (ts : list timer) : earliest ts = None → ts = [].
Proof.
  destruct ts as [|x ts]; [done|]. simpl.
  destruct (earliest ts); [by case_bool_decide|done].
Qed.

Lemma earliest_least (ts : list timer) m :
  earliest ts = Some m → ∀ y, y ∈ ts → (due m ≤ due y)%Z.
Proof.
  revert m. induction ts as [|x ts IH]; intros m Hm y Hy; [by apply not_elem_of_nil in Hy|].
  simpl in Hm. destruct (earliest ts) as [z|] eqn:Hz.
  - case_bool_decide; injection Hm as <-;
      apply elem_of_cons in Hy as [->|Hy]; try lia;
      specialize (IH z eq_refl y Hy); lia.
  - injection Hm as <-. apply elem_of_cons in Hy as [->|Hy]; [lia|].
    apply earliest_None in Hz. subst ts. by apply not_elem_of_nil in Hy.
Qed.

Lemma nextDue_None t s y :
  nextDue t s = None → y ∈ timers s → (t < due y)%Z.
Proof.
  unfold nextDue. intros Hn Hy.
  destruct (earliest (timers s)) as [m|] eqn:Hm.
  - case_bool_decide; [done|]. pose proof (earliest_least _ m Hm y Hy). lia.
  - apply earliest_None in Hm. rewrite Hm in Hy. by apply not_elem_of_nil in Hy.
Qed.

Lemma timerFires_keeps_free n s :
  hasExecutedImmediately s = false →
  hasExecutedImmediately (timerFires toString n s) = false.
Proof.
  intros Hflag. unfold timerFires. destruct (findTimer n (timers s)) as [tm|]; [|done].
  destruct (cb tm); unfold slotReleaseFired, debounceFired.
  - destruct (_ && _); [|done].
    by destruct (executeTrailing_frame toString
      (set_hasExecutedImmediately false (set_timers (filter (λ x, tid x ≠ n)) s)))
      as (_ & _ & _ & _ & _ & ->).
  - by destruct (executeTrailing_frame toString
      (set_timers (filter (λ x, tid x ≠ n)) s)) as (_ & _ & _ & _ & _ & ->).
Qed.

Lemma slotRelease_frees x s :
  identified s → x ∈ timers s → cb x = SlotRelease →
  hasExecutedImmediately (timerFires toString (tid x) s) = false.
Proof.
  intros I Hx Hcb. unfold timerFires. rewrite (findTimer_elem_of s x I Hx), Hcb.
  unfold slotReleaseFired. destruct (_ && _); [|done].
  by destruct (executeTrailing_frame toString
    (set_hasExecutedImmediately false (set_timers (filter (λ y, tid y ≠ tid x)) s)))
    as (_ & _ & _ & _ & _ & ->).
Qed.

Lemma released_advance x fuel t s :
  (due x ≤ t)%Z → cb x = SlotRelease → reachable toString s →
  length (timers s) ≤ fuel →
  hasExecutedImmediately s = false ∨ x ∈ timers s →
  hasExecutedImmediately (advance toString fuel t s) = false.
Proof.
  intros Hdue Hcb. revert s. induction fuel as [|fuel IH]; intros s Hr Hlen HP; simpl.
  - destruct HP as [?|Hx]; [done|].
    destruct (timers s); [by apply not_elem_of_nil in Hx|simpl in Hlen; lia].
  - destruct (nextDue t s) as [y|] eqn:Hnext.
    + unfold nextDue in Hnext.
      destruct (earliest (timers s)) as [m|] eqn:Hm; [|done].
      case_bool_decide; [|done]. injection Hnext as ->.
      apply earliest_elem_of in Hm.
      pose proof (reachable_step toString s (Clock (due y)) Hr) as Hr1. simpl in Hr1.
      pose proof (reachable_identified _ Hr1) as I1.
      pose proof (reachable_step toString _ (TimerFires (tid y)) Hr1) as Hr2.
      simpl in Hr2.
      assert (timers (timerFires toString (tid y) (set_now (due y) s))
              = filter (λ z, tid z ≠ tid y) (timers s)) as Htimers.
      { exact (timerFires_timers toString (tid y) (set_now (due y) s) y
                 (findTimer_elem_of (set_now (due y) s) y I1 Hm)). }
      apply IH; [done| |].
      * rewrite Htimers.
        pose proof (length_filter_lt (λ z, tid z ≠ tid y) (timers s) y Hm) as Hlt.
        assert (length (filter (λ z, tid z ≠ tid y) (timers s)) < length (timers s))
          by (apply Hlt; by intros []).
        lia.
      * destruct HP as [Hfree|Hx]; [left; by apply timerFires_keeps_free|].
        destruct (decide (tid x = tid y)) as [Heq|Hne].
        -- left. assert (x = y) as ->.
           { apply (NoDup_fmap_eq tid (timers s)); [apply I1|done|done|done]. }
           by apply (slotRelease_frees y (set_now (due y) s)).
        -- right. rewrite Htimers. by apply list_elem_of_filter.
    + destruct HP as [?|Hx]; [done|].
      pose proof (nextDue_None t s x Hnext Hx). lia.
Qed.

(** X2. The end of the quiet window.  If a slot-release timer is pending and
    the clock reaches its due time, then once the timers due have fired the
    flag is reset, and a call for a key that is neither cached nor pending is
    dispatched at once again: it makes exactly one fetch, for its own
    coordinates. *)
Theorem X2_slot_released s x t lat lng :
  reachable toString s →
  x ∈ timers s → cb x = SlotRelease → (due x ≤ t)%Z →
  hasExecutedImmediately (advance toString (length (timers s)) t s) = false ∧
  (cache (advance toString (length (timers s)) t s) !! cacheKeyOf toString lat lng = None →
   pendingRequests (advance toString (length (timers s)) t s)
     !! cacheKeyOf toString lat lng = None →
   ∃ g, fetchesSince (advance toString (length (timers s)) t s)
          (fst (getAddressFromCoordinates toString lat lng
                  (advance toString (length (timers s)) t s))) = [g] ∧
        flat g = lat ∧ flng g = lng ∧ isImmediate (fcont g) = true).
Proof.
  intros Hr Hx Hcb Hdue.
  assert (hasExecutedImmediately (advance toString (length (timers s)) t s) = false)
    as Hfree by (apply (released_advance x); auto).
  split; [done|]. intros Hc Hp.
  destruct (call_immediate toString lat lng _ Hc Hp Hfree)
    as (_ & _ & _ & Hlog & _).
  eexists. split; [unfold fetchesSince; rewrite Hlog; apply drop_app_length|done].
Qed.

(** ** With [#fetchAddress] as the fetcher *)

Lemma orNull_nonempty v : orNull v ≠ Some "".
Proof.
  destruct v as [x|]; simpl; [|done].
  destruct (truthy x) eqn:E; [|done]. intros [= ->]. done.
Qed.

Lemma fetchAddressResult_nonempty x : fetchAddressResult x ≠ Ok (Some "").
Proof.
  destruct x as [| |status body]; simpl; try done.
  destruct (negb (responseOk status)); [done|].
  destruct body as [| |dn]; try done.
  intros [= H]. by apply orNull_nonempty in H.
Qed.

Lemma noEmpty_settle p o ps :
  o ≠ Fulfilled (Some "") → noEmpty ps → noEmpty (settle p o ps).
Proof.
  intros Ho Hps q. unfold settle. destruct (ps !! p) as [[]|] eqn:E; try apply Hps.
  destruct (decide (p = q)) as [->|Hne].
  - rewrite list_lookup_insert_eq by (by eapply lookup_lt_Some). congruence.
  - rewrite list_lookup_insert_ne by done. apply Hps.
Qed.

Lemma noEmpty_resolveAll rs v ps :
  v ≠ Some "" → noEmpty ps → noEmpty (resolveAll rs v ps).
Proof.
  intros Hv. unfold resolveAll. revert ps.
  induction rs as [|r rs IH]; intros ps Hps; simpl; [done|].
  apply IH, noEmpty_settle; [congruence|done].
Qed.

Lemma noEmpty_snoc ps : noEmpty ps → noEmpty (ps ++ [Pending]).
Proof.
  intros Hps q Hq. apply lookup_app_Some in Hq as [Hq|[_ Hq]]; [by apply (Hps q)|].
  destruct (q - length ps); [done|by destruct n].
Qed.

(** X5. With [#fetchAddress] as the fetcher, an address is a non-empty string
    or [null]: the cache never holds the empty string and no caller is ever
    handed it (a missing or empty [display_name] is stored and delivered as
    [null]); and a fetch succeeds only on a response with a status in
    200..299 whose body is JSON other than [null]. *)
Theorem X5_no_empty_address (es : list (served (num := num))) :
  (∀ k, cache (exec toString (servedEvent <$> es) init) !! k ≠ Some (Some "")) ∧
  (∀ p, outcome (exec toString (servedEvent <$> es) init) (Follows p)
        ≠ Fulfilled (Some "")) ∧
  (∀ lat lng,
     snd (getAddressFromCoordinates toString lat lng
            (exec toString (servedEvent <$> es) init)) ≠ Resolved (Some "")) ∧
  (∀ x v, fetchAddressResult x = Ok v →
          ∃ status display_name,
            x = Answered status (JsonValue display_name) ∧
            200 ≤ status ≤ 299 ∧ v = orNull display_name).
Proof.
  assert (∀ s, ((∀ k, cache s !! k ≠ Some (Some "")) ∧ noEmpty (promises s)) →
          ∀ e, (∀ n r, e = FetchSettles n r → r ≠ Ok (Some "")) →
          ((∀ k, cache (step toString s e) !! k ≠ Some (Some "")) ∧
           noEmpty (promises (step toString s e)))) as Hstep.
  { intros s [Hc Hp] e He. destruct e as [lat lng|n r|n|t]; simpl.
    - unfold getAddressFromCoordinates.
      destruct (cache s !! _); [done|]. destruct (pendingRequests s !! _); [done|].
      destruct (hasExecutedImmediately s); simpl.
      + destruct (debounceTimer s); simpl; (split; [done|by apply noEmpty_snoc]).
      + split; [done|by apply noEmpty_snoc].
    - specialize (He n r eq_refl). unfold fetchSettles.
      destruct (findFetch n (inflight s)) as [ft|]; [|done].
      destruct (fcont ft) as [k p|k]; unfold immediateSettled, trailingSettled;
        destruct r as [v|]; simpl.
      + split.
        * intros k'. destruct (decide (k = k')) as [<-|Hne];
            [rewrite lookup_insert_eq; congruence|by rewrite lookup_insert_ne].
        * apply noEmpty_settle; [congruence|].
          apply noEmpty_resolveAll; [congruence|done].
      + split; [done|by apply noEmpty_settle].
      + split.
        * intros k'. destruct (decide (k = k')) as [<-|Hne];
            [rewrite lookup_insert_eq; congruence|by rewrite lookup_insert_ne].
        * apply noEmpty_resolveAll; [congruence|done].
      + split; [done|by apply noEmpty_resolveAll].
    - by destruct (timerFires_frame toString n s) as (-> & _ & -> & _).
    - done. }
  assert ((∀ k, cache (exec toString (servedEvent <$> es) init) !! k ≠ Some (Some "")) ∧
          noEmpty (promises (exec toString (servedEvent <$> es) init))) as [Hc Hp].
  { assert ((∀ k, cache (init (num := num)) !! k ≠ Some (Some "")) ∧
            noEmpty (promises (init (num := num)))) as H0.
    { split; [intros k; simpl; by rewrite lookup_empty|intros q; by destruct q]. }
    revert H0. generalize (init (num := num)).
    induction es as [|e es IH]; intros s Hs; [done|].
    rewrite fmap_cons. simpl. apply IH. apply Hstep; [done|].
    intros n r He. destruct e; simpl in He; try done.
    injection He as _ <-. apply fetchAddressResult_nonempty. }
  split; [done|]. split; [|split].
  - intros p. unfold outcome.
    destruct (promises _ !! p) as [o|] eqn:E; simpl; [|done].
    intros ->. by apply (Hp p).
  - intros lat lng. unfold getAddressFromCoordinates.
    destruct (cache _ !! _) as [v|] eqn:E; simpl.
    + intros [= ->]. by apply (Hc _) in E.
    + destruct (pendingRequests _ !! _); [done|].
      destruct (hasExecutedImmediately _); simpl; [|done].
      by destruct (debounceTimer (exec toString (servedEvent <$> es) init)).
  - intros x v Hx. destruct x as [| |status body]; simpl in Hx; try done.
    unfold responseOk in Hx. case_bool_decide; simpl in Hx; [|done].
    destruct body as [| |dn]; try done. injection Hx as <-. by exists status, dn.
Qed.

End MoreProofs.

(** * The claims about the handles the callers hold *)

Section Handles.
Context {num : Type} (toString : num → string).

Lemma inflight_executeTrailing s (f : fetch (num := num)) :
  f ∈ inflight s → f ∈ inflight (executeTrailing toString s).
Proof.
  intros Hin. unfold executeTrailing. destruct (lastArgs s) as [[lat lng]|]; [|done].
  simpl. apply elem_of_app. by left.
Qed.

Lemma inflight_timerFires n s (f : fetch (num := num)) :
  f ∈ inflight s → f ∈ inflight (timerFires toString n s).
Proof.
  intros Hin. unfold timerFires. destruct (findTimer n (timers s)) as [tm|]; [|done].
  destruct (cb tm); unfold slotReleaseFired, debounceFired.
  - destruct (_ && _); [|done]. by apply inflight_executeTrailing.
  - by apply inflight_executeTrailing.
Qed.

(** A fetch stays in flight until it settles. *)
Lemma inflight_step s e (f : fetch (num := num)) :
  f ∈ inflight s → keepsInFlight (fid f) e → f ∈ inflight (step toString s e).
Proof.
  intros Hin He. destruct e as [lat lng|m r|m|t]; simpl.
  - unfold getAddressFromCoordinates.
    destruct (cache s !! _); [done|]. destruct (pendingRequests s !! _); [done|].
    destruct (hasExecutedImmediately s); simpl.
    + by destruct (debounceTimer s).
    + apply elem_of_app. by left.
  - unfold fetchSettles. destruct (findFetch m (inflight s)) as [ft|]; [|done].
    assert (f ∈ filter (λ x, fid x ≠ m) (inflight s)) as Hf.
    { apply list_elem_of_filter. split; [|done]. simpl in He. congruence. }
    destruct (fcont ft) as [k p|k]; unfold immediateSettled, trailingSettled;
      destruct r as [v|]; done.
  - by apply inflight_timerFires.
  - done.
Qed.

Lemma inflight_exec es s (f : fetch (num := num)) :
  f ∈ inflight s → Forall (keepsInFlight (fid f)) es →
  f ∈ inflight (exec toString es s).
Proof.
  revert s. induction es as [|e es IH]; intros s Hin Hes; simpl; [done|].
  inversion Hes; subst. apply IH; [by apply inflight_step|done].
Qed.



(** What the settlement of the immediate fetch does to the promise of its
    chain. *)
Lemma immediate_chain s f k p res :
  consistent toString s → identified s →
  f ∈ inflight s → fcont f = AfterImmediate k p →
  outcome s (Follows p) = Pending ∧
  outcome (fetchSettles (fid f) res s) (Follows p) = chainOutcome res.
Proof.
  intros Hs I Hin Hk.
  pose proof (findFetch_elem_of s f I Hin) as Hfind.
  destruct (immediate_pending _ _ Hs f k p Hin Hk) as [Hpp Hnq].
  split; [unfold outcome; by rewrite Hpp|].
  unfold outcome, fetchSettles. rewrite Hfind, Hk. simpl.
  unfold immediateSettled. destruct res as [v|]; simpl.
  - rewrite settle_lookup_pending; [done|]. by rewrite resolveAll_notin.
  - by rewrite settle_lookup_pending.
Qed.

(** C6. A fetch that fails.  The call that dispatched at once holds a handle
    that is pending while its fetch is in flight and rejected when that fetch
    fails; the failure leaves the queue as it was and every queued resolver
    pending.  A call that was queued holds a handle that stays pending when an
    immediate fetch fails and is fulfilled with [null] when a deferred fetch
    fails; the failure of a deferred fetch resolves every queued resolver with
    [null] and empties the queue. *)
Theorem C6_failure_asymmetry :
  (∀ (s : state (num := num)) lat lng es,
     reachable toString s →
     cache s !! cacheKeyOf toString lat lng = None →
     pendingRequests s !! cacheKeyOf toString lat lng = None →
     hasExecutedImmediately s = false →
     Forall (keepsInFlight (length (fetchLog s))) es →
     let r := getAddressFromCoordinates toString lat lng s in
     let s1 := exec toString es (fst r) in
     let s2 := fetchSettles (length (fetchLog s)) Failed s1 in
     outcome s1 (snd r) = Pending ∧
     outcome s2 (snd r) = Rejected ∧
     pendingResolvers s2 = pendingResolvers s1 ∧
     ∀ w, w ∈ pendingResolvers s1 → outcome s2 (Follows w) = Pending) ∧
  (∀ (s : state (num := num)) lat lng es n f,
     reachable toString s →
     cache s !! cacheKeyOf toString lat lng = None →
     pendingRequests s !! cacheKeyOf toString lat lng = None →
     hasExecutedImmediately s = true →
     let r := getAddressFromCoordinates toString lat lng s in
     let s1 := exec toString es (fst r) in
     let s2 := fetchSettles n Failed s1 in
     outcome s1 (snd r) = Pending →
     findFetch n (inflight s1) = Some f →
     match fcont f with
     | AfterImmediate _ _ =>
         outcome s2 (snd r) = Pending ∧
         pendingResolvers s2 = pendingResolvers s1
     | AfterTrailing _ =>
         outcome s2 (snd r) = Fulfilled None ∧
         (∀ w, w ∈ pendingResolvers s1 → outcome s2 (Follows w) = Fulfilled None) ∧
         pendingResolvers s2 = []
     end).
Proof.
  split.
  - intros s lat lng es Hr Hc Hp Hflag Hes r s1 s2.
    destruct (call_immediate toString lat lng s Hc Hp Hflag)
      as (Hh & _ & _ & _ & Hin & _).
    fold r in Hh, Hin.
    set (f := {| fid := length (fetchLog s); flat := lat; flng := lng;
                 fcont := AfterImmediate (cacheKeyOf toString lat lng)
                            (length (promises s)) |}) in *.
    assert (reachable toString s1) as Hr1.
    { apply reachable_exec. by apply (reachable_step toString s (Call lat lng)). }
    assert (f ∈ inflight s1) as Hin1.
    { apply inflight_exec; [|done]. rewrite Hin. apply elem_of_app. right.
      by apply list_elem_of_singleton. }
    pose proof (reachable_consistent toString s1 Hr1) as Hs1.
    pose proof (reachable_identified toString s1 Hr1) as I1.
    destruct (immediate_chain s1 f _ _ Failed Hs1 I1 Hin1 eq_refl) as [Hpend Hrej].
    rewrite Hh. split; [done|]. split; [done|].
    pose proof (queue_step toString s1 (FetchSettles (length (fetchLog s)) Failed) Hs1)
      as Hqs.
    pose proof (findFetch_elem_of s1 f I1 Hin1) as Hfind.
    change (fid f) with (length (fetchLog s)) in Hfind.
    simpl in Hqs. rewrite Hfind in Hqs. simpl in Hqs.
    destruct Hqs as [Hq Hall]. split; [done|].
    intros w Hw. unfold s2, outcome. by rewrite (Hall w Hw).
  - intros s lat lng es n f Hr Hc Hp Hflag r s1 s2 Hpend Hfind.
    destruct (call_queued toString lat lng s Hc Hp Hflag) as (Hh & Hps & Hqs & _).
    fold r in Hh, Hps, Hqs.
    assert (consistent toString (fst r)) as Hs0.
    { apply consistent_call. by apply reachable_consistent. }
    assert (consistent toString s1) as Hs1 by (by apply consistent_exec).
    assert (queuedOrFulfilled (length (promises s)) (fst r)) as Hw.
    { left. rewrite Hps, Hqs. split; [by apply list_lookup_middle|].
      apply elem_of_app. right. by apply list_elem_of_singleton. }
    apply (queuedOrFulfilled_exec toString _ es) in Hw; [|done]. fold s1 in Hw.
    rewrite Hh in Hpend |- *. unfold outcome in Hpend.
    destruct Hw as [[_ Hin]|[v Hv]]; [|by rewrite Hv in Hpend].
    pose proof (queue_step toString s1 (FetchSettles n Failed) Hs1) as Hstep.
    simpl in Hstep. rewrite Hfind in Hstep.
    destruct (fcont f) as [k p|k]; simpl in Hstep; destruct Hstep as [Hq Hall].
    + split; [|done]. unfold s2, outcome. by rewrite (Hall _ Hin).
    + split; [|split; [|done]].
      * unfold s2, outcome. by rewrite (Hall _ Hin).
      * intros w Hw. unfold s2, outcome. by rewrite (Hall w Hw).
Qed.


End Handles.

(** ** The two theorems at concrete states *)

Local Open Scope Z_scope.

(** C6 on the run with [A] called at 0 ms and [B] queued behind it at 100 ms:
    the caller of [A] sees the failure of fetch 0, the caller of [B] stays
    pending; and when the deferred fetch for [B] (fetch 1, started by the
    debounce timer at 1100 ms) fails, the caller of [B] gets [null]. *)
Lemma C6_failure_asymmetry_witness :
  (let r := getAddressFromCoordinates showZ (fst A) (snd A) init in
   let s1 := exec showZ [Clock 100; call B] (fst r) in
   let s2 := fetchSettles 0 Failed s1 in
   outcome s1 (snd r) = Pending ∧
   outcome s2 (snd r) = Rejected ∧
   pendingResolvers s2 = pendingResolvers s1 ∧
   ∀ w, w ∈ pendingResolvers s1 → outcome s2 (Follows w) = Pending) ∧
  (let r := getAddressFromCoordinates showZ (fst B) (snd B) busyA in
   let s1 := exec showZ [] (fst r) in
   let s2 := fetchSettles 0 Failed s1 in
   outcome s2 (snd r) = Pending ∧
   pendingResolvers s2 = pendingResolvers s1) ∧
  (let r := getAddressFromCoordinates showZ (fst B) (snd B) busyA in
   let s1 := exec showZ [Clock 150; FetchSettles 0 Failed; Clock 1100; TimerFires 0]
               (fst r) in
   let s2 := fetchSettles 1 Failed s1 in
   outcome s2 (snd r) = Fulfilled None ∧
   (∀ w, w ∈ pendingResolvers s1 → outcome s2 (Follows w) = Fulfilled None) ∧
   pendingResolvers s2 = []).
Proof.
  split; [|split].
  - refine (proj1 (C6_failure_asymmetry showZ) init (fst A) (snd A)
              [Clock 100; call B] _ _ _ _ _).
    + exists []. reflexivity.
    + reflexivity.
    + reflexivity.
    + reflexivity.
    + repeat constructor.
  - refine (proj2 (C6_failure_asymmetry showZ) busyA (fst B) (snd B) [] 0%nat fetchA
              _ _ _ _ _ _).
    + exists [call A; Clock 100]. reflexivity.
    + reflexivity.
    + reflexivity.
    + reflexivity.
    + vm_compute. reflexivity.
    + vm_compute. reflexivity.
  - refine (proj2 (C6_failure_asymmetry showZ) busyA (fst B) (snd B)
              [Clock 150; FetchSettles 0 Failed; Clock 1100; TimerFires 0]
              1%nat fetchB _ _ _ _ _ _).
    + exists [call A; Clock 100]. reflexivity.
    + reflexivity.
    + reflexivity.
    + reflexivity.
    + vm_compute. reflexivity.
    + vm_compute. reflexivity.
Defined.


Local Close Scope Z_scope.

(** * Beyond the claims: the element *)

Lemma busy_run n b es :
  wellNested n es → (0 ≤ n)%Z →
  b = (if (0 <? n)%Z then Some true else None) →
  (0 ≤ loadingTiles (foldl onTileEvent {| loadingTiles := n; ariaBusy := b |} es))%Z ∧
  loadingTiles (foldl onTileEvent {| loadingTiles := n; ariaBusy := b |} es)
    = (n + outstanding es)%Z ∧
  ariaBusy (foldl onTileEvent {| loadingTiles := n; ariaBusy := b |} es)
    = (if (0 <? loadingTiles
                  (foldl onTileEvent {| loadingTiles := n; ariaBusy := b |} es))%Z
       then Some true else None).
Proof.
  revert n b. induction es as [|e es IH]; intros n b Hw Hn Hb; simpl.
  - split; [done|]. split; [lia|done].
  - destruct e; simpl in *.
    + destruct (IH (n + 1)%Z (Some true) Hw) as (H1 & H2 & H3); [lia| |].
      * destruct (0 <? n + 1)%Z eqn:E; [done|]. apply Z.ltb_ge in E. lia.
      * split; [done|]. split; [lia|done].
    + destruct Hw as [Hpos Hw].
      destruct (IH (n - 1)%Z (if (n - 1 =? 0)%Z then None else b) Hw)
        as (H1 & H2 & H3); [lia| |].
      * destruct (n - 1 =? 0)%Z eqn:E.
        -- apply Z.eqb_eq in E. by rewrite E.
        -- apply Z.eqb_neq in E. subst b.
           destruct (0 <? n)%Z eqn:E1; [|apply Z.ltb_ge in E1; lia].
           destruct (0 <? n - 1)%Z eqn:E2; [done|]. apply Z.ltb_ge in E2. lia.
      * split; [done|]. split; [lia|done].
Qed.

(** X6. The busy indicator of the tile layer.  For every sequence of
    ['loading'] and ['load'] events in which each ['load'] answers an earlier
    ['loading'], from the first event on the count [loadingTiles] is the
    number of loads outstanding and [ariaBusy] is [true] exactly while that
    number is positive, [null] otherwise. *)
Theorem X6_busy_while_tiles_load es :
  wellNested 0 es → es ≠ [] →
  loadingTiles (foldl onTileEvent busyInit es) = outstanding es ∧
  (0 ≤ outstanding es)%Z ∧
  ariaBusy (foldl onTileEvent busyInit es)
    = (if (0 <? outstanding es)%Z then Some true else None).
Proof.
  intros Hw Hne. destruct es as [|e es]; [done|]. destruct e; simpl in Hw.
  - destruct (busy_run 1 (Some true) es Hw) as (H1 & H2 & H3); [lia|done|].
    change (foldl onTileEvent busyInit (TilesLoading :: es))
      with (foldl onTileEvent {| loadingTiles := 1; ariaBusy := Some true |} es).
    change (outstanding (TilesLoading :: es)) with (outstanding es + 1)%Z.
    rewrite H2 in H1, H3. rewrite H2, H3.
    replace (outstanding es + 1)%Z with (1 + outstanding es)%Z by lia.
    split; [done|]. split; [lia|done].
  - lia.
Qed.

Ltac caseCode c :=
  repeat match goal with
         | |- context [String.eqb ?k c] =>
             destruct (String.eqb_spec k c) as [?|?]; [subst; cbv beta iota|]
         end;
  cbv beta iota.

(** X7. The keyboard handler.  With the meta key held it does nothing.
    Otherwise it does nothing (no handler for the code, or Enter on a button
    or a link), or it clicks the focused button and leaves the default action
    alone (Space on a button, and only then), or it prevents the default
    action first and then does exactly one thing.  The arrow keys cancel in
    pairs: up then down, or left then right, pan by nothing in all. *)
Theorem X7_keyboard_handler e :
  (metaKey e = true → onKeydown e = []) ∧
  (onKeydown e = [] ∨ onKeydown e = [ClickTarget] ∨
   ∃ a, onKeydown e = [PreventDefault; a] ∧ a ≠ PreventDefault ∧ a ≠ ClickTarget) ∧
  (onKeydown e = [ClickTarget] ↔
   metaKey e = false ∧ code e = "Space" ∧ onButton e = true) ∧
  (∀ b1 l1 b2 l2 m,
     netPan (onKeydown {| code := "ArrowUp"; metaKey := m; onButton := b1; onLink := l1 |}
             ++ onKeydown {| code := "ArrowDown"; metaKey := m; onButton := b2; onLink := l2 |})
       = (0, 0)%Z ∧
     netPan (onKeydown {| code := "ArrowLeft"; metaKey := m; onButton := b1; onLink := l1 |}
             ++ onKeydown {| code := "ArrowRight"; metaKey := m; onButton := b2; onLink := l2 |})
       = (0, 0)%Z).
Proof.
  split; [|split; [|split]].
  - unfold onKeydown. by intros ->.
  - destruct e as [c m b l]. unfold onKeydown, keyHandlers.
    cbv beta iota delta [handlerOf code metaKey onButton onLink].
    destruct m; [by left|]. caseCode c;
      repeat (match goal with
              | |- context [if ?x then _ else _] => destruct x
              end);
      first [ by left
            | by (right; left)
            | right; right; eexists; (split; [reflexivity|done]) ].
  - destruct e as [c m b l]. unfold onKeydown, keyHandlers.
    cbv beta iota delta [handlerOf code metaKey onButton onLink].
    destruct m; [split; [done|by intros (? & _)]|].
    caseCode c; destruct b; try destruct l;
      split; try done; try (by intros (_ & ? & _)); try (by intros (_ & _ & ?)).
  - intros b1 l1 b2 l2 m'. by destruct m'.
Qed.


Section PickerProofs.
Context {num : Type} (toString : num → string) (toFixed6 : num → string).
Implicit Types (w : world (num := num)) (u : picker (num := num)).

Lemma resumeSetMarker_frame lat lng v u :
  dispatched (resumeSetMarker toFixed6 lat lng v u) = dispatched u ∧
  alerts (resumeSetMarker toFixed6 lat lng v u) = alerts u ∧
  address (resumeSetMarker toFixed6 lat lng v u) = orNull v ∧
  (marker u = None → marker (resumeSetMarker toFixed6 lat lng v u) = None).
Proof.
  unfold resumeSetMarker.
  destruct (marker u) as [m|] eqn:E; [|simpl; by rewrite ?E].
  by destruct (createPopup toFixed6 false v (Some (lat, lng))).
Qed.

Lemma resumeAll_frame g l u :
  dispatched (resumeAll toFixed6 g l u) = dispatched u ∧
  alerts (resumeAll toFixed6 g l u) = alerts u ∧
  (marker u = None → marker (resumeAll toFixed6 g l u) = None).
Proof.
  unfold resumeAll. revert u.
  induction l as [|[p [lat lng]] l IH]; intros u; simpl; [done|].
  destruct (promises g !! p) as [[|v|]|]; try apply IH.
  destruct (IH (resumeSetMarker toFixed6 lat lng v u)) as (-> & -> & Hm).
  destruct (resumeSetMarker_frame lat lng v u) as (-> & -> & _ & Hn).
  split; [done|]. split; [done|]. intros H. by apply Hm, Hn.
Qed.

Lemma awaitHandle_frame lat lng h w :
  dispatched (ui (awaitHandle toFixed6 lat lng h w)) = dispatched (ui w) ∧
  geo (awaitHandle toFixed6 lat lng h w) = geo w.
Proof.
  unfold awaitHandle. destruct (outcome (geo w) h) as [|v|]; simpl.
  - by destruct h.
  - by destruct (resumeSetMarker_frame lat lng v (ui w)) as (-> & _).
  - done.
Qed.

(** X9. A click on the map dispatches ['map-picker-marker-set'] with the
    clicked point, formatted by [toFixed(6)], and with the address the element
    held before the click ([null] the first time): the event is dispatched
    before the [await] in [setMarker] is over, also when the address of the
    clicked point is in the cache, in which case the element holds that
    address right after the click. *)
Theorem X9_click_event_has_previous_address w lat lng :
  dispatched (ui (perform toString toFixed6 w (MapClicked lat lng)))
    = dispatched (ui w) ++
      [{| evName := "map-picker-marker-set"; evLat := toFixed6 lat;
          evLng := toFixed6 lng; evAddress := orNull (address (ui w)) |}] ∧
  (∀ v, cache (geo w) !! cacheKeyOf toString lat lng = Some v →
        address (ui (perform toString toFixed6 w (MapClicked lat lng))) = orNull v).
Proof.
  unfold perform, setMarkerCall.
  destruct (getAddressFromCoordinates toString lat lng (geo w)) as [g h] eqn:E.
  split.
  - simpl.
    match goal with
    | |- dispatched (ui (awaitHandle _ _ _ _ ?w0)) = _ =>
        destruct (awaitHandle_frame lat lng h w0) as (-> & _)
    end.
    done.
  - intros v Hc. rewrite (call_cached toString lat lng (geo w) v Hc) in E.
    injection E as <- <-. unfold awaitHandle. simpl.
    match goal with
    | |- address (resumeSetMarker _ _ _ _ ?u0) = _ =>
        by destruct (resumeSetMarker_frame lat lng v u0) as (_ & _ & -> & _)
    end.
Qed.

Lemma geocoder_keeps_reset es w :
  marker (ui w) = None →
  marker (ui (performAll toString toFixed6 (Geocoder <$> es) w)) = None ∧
  dispatched (ui (performAll toString toFixed6 (Geocoder <$> es) w)) = dispatched (ui w) ∧
  alerts (ui (performAll toString toFixed6 (Geocoder <$> es) w)) = alerts (ui w).
Proof.
  unfold performAll. revert w. induction es as [|e es IH]; intros w Hm; [done|].
  rewrite fmap_cons. simpl.
  set (g := step toString (geo w) e).
  set (first := filter (λ a, wasQueued (geo w) a = true) (awaiting w)).
  set (rest := filter (λ a, wasQueued (geo w) a = false) (awaiting w)).
  destruct (resumeAll_frame g first (ui w)) as (Hd1 & Ha1 & Hm1).
  destruct (resumeAll_frame g rest (resumeAll toFixed6 g first (ui w)))
    as (Hd2 & Ha2 & Hm2).
  destruct (IH {| geo := g;
                  ui := resumeAll toFixed6 g rest (resumeAll toFixed6 g first (ui w));
                  awaiting := filter (λ a, stillPending g a = true) (awaiting w) |})
    as (H1 & H2 & H3); [simpl; by apply Hm2, Hm1|].
  simpl in H2, H3. split; [done|]. split; congruence.
Qed.

(** X10. After a reset there is nothing to confirm.  Whatever the geocoder
    does after [resetMap] (a lookup that was pending may still be answered),
    the element has no marker, and a click on the confirm button dispatches
    no event and shows the alert. *)
Theorem X10_reset_then_confirm w es :
  marker (ui (performAll toString toFixed6 (Geocoder <$> es)
                (perform toString toFixed6 w ResetRequested))) = None ∧
  dispatched (ui (perform toString toFixed6
                    (performAll toString toFixed6 (Geocoder <$> es)
                       (perform toString toFixed6 w ResetRequested))
                    ConfirmClicked)) = dispatched (ui w) ∧
  alerts (ui (perform toString toFixed6
                (performAll toString toFixed6 (Geocoder <$> es)
                   (perform toString toFixed6 w ResetRequested))
                ConfirmClicked))
    = alerts (ui w) ++ ["Please select a location on the map first."].
Proof.
  destruct (geocoder_keeps_reset es (perform toString toFixed6 w ResetRequested))
    as (Hm & Hd & Ha); [done|].
  split; [done|].
  set (w' := performAll toString toFixed6 (Geocoder <$> es)
               (perform toString toFixed6 w ResetRequested)) in *.
  change (perform toString toFixed6 w' ConfirmClicked)
    with {| geo := geo w'; ui := handleConfirm toFixed6 (ui w');
            awaiting := awaiting w' |}.
  cbn [ui]. unfold handleConfirm. rewrite Hm. cbn [dispatched alerts].
  rewrite Hd, Ha. done.
Qed.

Lemma markerPlaced_immediate w lat lng :
  cache (geo w) !! cacheKeyOf toString lat lng = None →
  pendingRequests (geo w) !! cacheKeyOf toString lat lng = None →
  hasExecutedImmediately (geo w) = false →
  perform toString toFixed6 w (MarkerPlaced lat lng)
  = {| geo := fst (getAddressFromCoordinates toString lat lng (geo w));
       ui := placeMarker lat lng (ui w);
       awaiting := awaiting w ++ [(length (promises (geo w)), (lat, lng))] |}.
Proof.
  intros Hc Hp Hflag.
  destruct (call_immediate toString lat lng (geo w) Hc Hp Hflag) as (Hh & Hps & _).
  unfold perform, setMarkerCall.
  destruct (getAddressFromCoordinates toString lat lng (geo w)) as [g h].
  simpl in *. subst h. unfold awaitHandle, outcome. simpl.
  rewrite Hps, list_lookup_middle by done. done.
Qed.

Lemma markerPlaced_queued w lat lng :
  cache (geo w) !! cacheKeyOf toString lat lng = None →
  pendingRequests (geo w) !! cacheKeyOf toString lat lng = None →
  hasExecutedImmediately (geo w) = true →
  perform toString toFixed6 w (MarkerPlaced lat lng)
  = {| geo := fst (getAddressFromCoordinates toString lat lng (geo w));
       ui := placeMarker lat lng (ui w);
       awaiting := awaiting w ++ [(length (promises (geo w)), (lat, lng))] |}.
Proof.
  intros Hc Hp Hflag.
  destruct (call_queued toString lat lng (geo w) Hc Hp Hflag) as (Hh & Hps & _).
  unfold perform, setMarkerCall.
  destruct (getAddressFromCoordinates toString lat lng (geo w)) as [g h].
  simpl in *. subst h. unfold awaitHandle, outcome. simpl.
  rewrite Hps, list_lookup_middle by done. done.
Qed.

(** X11. A marker can show what was looked up for another point.  The slot is
    free and neither point is cached or pending: the marker is set at A, then
    at B (the call for B is queued behind the fetch for A), then the fetch for
    A succeeds with [v].  The call for B is resumed first and the call for A
    after it, on the marker that is now at B: the marker at B shows [v], the
    address of A, or, if [v] is [null] or empty, the coordinates of A; and
    the element's address is [v || null]. *)
Theorem X11_marker_shows_another_lookup w latA lngA latB lngB v :
  reachable toString (geo w) →
  awaiting w = [] →
  hasExecutedImmediately (geo w) = false →
  cache (geo w) !! cacheKeyOf toString latA lngA = None →
  pendingRequests (geo w) !! cacheKeyOf toString latA lngA = None →
  cache (geo w) !! cacheKeyOf toString latB lngB = None →
  pendingRequests (geo w) !! cacheKeyOf toString latB lngB = None →
  cacheKeyOf toString latA lngA ≠ cacheKeyOf toString latB lngB →
  marker (ui (performAll toString toFixed6
                [MarkerPlaced latA lngA; MarkerPlaced latB lngB;
                 Geocoder (FetchSettles (length (fetchLog (geo w))) (Ok v))] w))
    = Some {| position := (latB, lngB);
              popup := match orNull v with
                       | Some a => AddressPopup a
                       | None => CoordinatesPopup (toFixed6 latA) (toFixed6 lngA)
                       end |} ∧
  address (ui (performAll toString toFixed6
                 [MarkerPlaced latA lngA; MarkerPlaced latB lngB;
                  Geocoder (FetchSettles (length (fetchLog (geo w))) (Ok v))] w))
    = orNull v ∧
  awaiting (performAll toString toFixed6
              [MarkerPlaced latA lngA; MarkerPlaced latB lngB;
               Geocoder (FetchSettles (length (fetchLog (geo w))) (Ok v))] w) = [].
Proof.
  intros Hr Haw Hflag HcA HpA HcB HpB Hne.
  pose proof (reachable_consistent toString _ Hr) as C.
  destruct (call_immediate toString latA lngA (geo w) HcA HpA Hflag)
    as (_ & Hps1 & Hq1 & _ & Hin1 & Hc1 & Hp1 & Hf1).
  set (g1 := fst (getAddressFromCoordinates toString latA lngA (geo w))) in *.
  assert (cache g1 !! cacheKeyOf toString latB lngB = None) as HcB1 by (by rewrite Hc1).
  assert (pendingRequests g1 !! cacheKeyOf toString latB lngB = None) as HpB1
    by (by rewrite Hp1, lookup_insert_ne).
  destruct (call_queued toString latB lngB g1 HcB1 HpB1 Hf1)
    as (_ & Hps2 & Hq2 & _ & _ & Hin2 & _).
  set (g2 := fst (getAddressFromCoordinates toString latB lngB g1)) in *.
  set (pA := length (promises (geo w))) in *.
  assert (length (promises g1) = S pA) as HpB'
    by (rewrite Hps1, length_app; simpl; unfold pA; lia).
  set (fA := {| fid := length (fetchLog (geo w)); flat := latA; flng := lngA;
                fcont := AfterImmediate (cacheKeyOf toString latA lngA) pA |}) in *.
  assert (findFetch (length (fetchLog (geo w))) (inflight g2) = Some fA) as Hfind.
  { rewrite Hin2, Hin1. apply (findFetch_snoc _ fA).
    intros x Hx. apply (fid_logged _ _ C) in Hx. simpl. lia. }
  assert (pA ∉ pendingResolvers g2) as HnA.
  { rewrite Hq2, Hq1, HpB'. intros [Hin|Heq%list_elem_of_singleton]%elem_of_app; [|lia].
    apply (queued_pending _ _ C), lookup_lt_Some in Hin. unfold pA in Hin. lia. }
  assert (S pA ∈ pendingResolvers g2) as HinB.
  { rewrite Hq2, HpB'. apply elem_of_app. right. by apply list_elem_of_singleton. }
  assert (promises g2 !! pA = Some Pending) as HlA.
  { rewrite Hps2. apply lookup_app_l_Some. rewrite Hps1. by apply list_lookup_middle. }
  assert (promises g2 !! S pA = Some Pending) as HlB.
  { rewrite Hps2. apply list_lookup_middle. done. }
  set (g3 := fetchSettles (length (fetchLog (geo w))) (Ok v) g2).
  assert (promises g3 !! pA = Some (Fulfilled v)) as H3A.
  { unfold g3, fetchSettles. rewrite Hfind. simpl.
    apply settle_lookup_pending. by rewrite resolveAll_notin. }
  assert (promises g3 !! S pA = Some (Fulfilled v)) as H3B.
  { unfold g3, fetchSettles. rewrite Hfind. simpl.
    apply settle_lookup_settled; [|done]. by apply resolveAll_in. }
  assert (performAll toString toFixed6
            [MarkerPlaced latA lngA; MarkerPlaced latB lngB;
             Geocoder (FetchSettles (length (fetchLog (geo w))) (Ok v))] w
          = perform toString toFixed6
              (perform toString toFixed6
                 (perform toString toFixed6 w (MarkerPlaced latA lngA))
                 (MarkerPlaced latB lngB))
              (Geocoder (FetchSettles (length (fetchLog (geo w))) (Ok v)))) as ->
    by reflexivity.
  rewrite (markerPlaced_immediate w latA lngA HcA HpA Hflag). fold g1 pA.
  rewrite Haw, app_nil_l.
  rewrite (markerPlaced_queued
             {| geo := g1; ui := placeMarker latA lngA (ui w);
                awaiting := [(pA, (latA, lngA))] |} latB lngB HcB1 HpB1 Hf1).
  cbn [geo ui awaiting]. fold g2. rewrite HpB'.
  unfold perform. cbn [geo ui awaiting step]. fold g3. cbn [app].
  rewrite (filter_cons_False (λ a, wasQueued g2 a = true) (pA, (latA, lngA)))
    by (unfold wasQueued; simpl; by rewrite bool_decide_false).
  rewrite (filter_cons_True (λ a, wasQueued g2 a = true) (S pA, (latB, lngB)))
    by (unfold wasQueued; simpl; by rewrite bool_decide_true).
  rewrite (filter_cons_True (λ a, wasQueued g2 a = false) (pA, (latA, lngA)))
    by (unfold wasQueued; simpl; by rewrite bool_decide_false).
  rewrite (filter_cons_False (λ a, wasQueued g2 a = false) (S pA, (latB, lngB)))
    by (unfold wasQueued; simpl; by rewrite bool_decide_true).
  rewrite (filter_cons_False (λ a, stillPending g3 a = true) (pA, (latA, lngA)))
    by (unfold stillPending; simpl; by rewrite H3A).
  rewrite (filter_cons_False (λ a, stillPending g3 a = true) (S pA, (latB, lngB)))
    by (unfold stillPending; simpl; by rewrite H3B).
  rewrite !filter_nil. unfold resumeAll. simpl. rewrite H3A, H3B.
  unfold resumeSetMarker, createPopup. simpl.
  destruct v as [a|]; simpl; [|done]. by destruct (truthy a).
Qed.

(** X12. The element never holds or sends an empty address: after any tasks,
    [this.address] is [null] or a non-empty string, and so is the address of
    every event dispatched, whatever the fetcher answers. *)
Theorem X12_no_empty_address_in_events (ts : list (task (num := num))) :
  address (ui (performAll toString toFixed6 ts worldInit)) ≠ Some "" ∧
  ∀ ev, ev ∈ dispatched (ui (performAll toString toFixed6 ts worldInit)) →
        evAddress ev ≠ Some "".
Proof.
  assert (∀ u lat lng v,
            (address u ≠ Some "" ∧ ∀ ev, ev ∈ dispatched u → evAddress ev ≠ Some "") →
            (address (resumeSetMarker toFixed6 lat lng v u) ≠ Some "" ∧
             ∀ ev, ev ∈ dispatched (resumeSetMarker toFixed6 lat lng v u) →
                   evAddress ev ≠ Some "")) as Hres.
  { intros u lat lng v [_ Hd].
    destruct (resumeSetMarker_frame lat lng v u) as (-> & _ & -> & _).
    split; [apply orNull_nonempty|done]. }
  assert (∀ g l u,
            (address u ≠ Some "" ∧ ∀ ev, ev ∈ dispatched u → evAddress ev ≠ Some "") →
            (address (resumeAll toFixed6 g l u) ≠ Some "" ∧
             ∀ ev, ev ∈ dispatched (resumeAll toFixed6 g l u) →
                   evAddress ev ≠ Some "")) as Hall.
  { intros g l. unfold resumeAll.
    induction l as [|[p [lat lng]] l IH]; intros u Hu; simpl; [done|].
    destruct (promises g !! p) as [[|v|]|]; apply IH; try done. by apply Hres. }
  assert (∀ name u,
            (address u ≠ Some "" ∧ ∀ ev, ev ∈ dispatched u → evAddress ev ≠ Some "") →
            (address (dispatchEventWithMarkerData toFixed6 name u) ≠ Some "" ∧
             ∀ ev, ev ∈ dispatched (dispatchEventWithMarkerData toFixed6 name u) →
                   evAddress ev ≠ Some "")) as Hdisp.
  { intros name u [Ha Hd]. unfold dispatchEventWithMarkerData.
    destruct (marker u); [|done]. simpl. split; [done|].
    intros ev [Hin| ->%list_elem_of_singleton]%elem_of_app; [by apply Hd|].
    simpl. apply orNull_nonempty. }
  assert (∀ lat lng h w,
            (address (ui w) ≠ Some "" ∧
             ∀ ev, ev ∈ dispatched (ui w) → evAddress ev ≠ Some "") →
            (address (ui (awaitHandle toFixed6 lat lng h w)) ≠ Some "" ∧
             ∀ ev, ev ∈ dispatched (ui (awaitHandle toFixed6 lat lng h w)) →
                   evAddress ev ≠ Some "")) as Hawait.
  { intros lat lng h w Hw. unfold awaitHandle.
    destruct (outcome (geo w) h) as [|v|]; simpl; [by destruct h|by apply Hres|done]. }
  unfold performAll.
  assert (address (ui (worldInit (num := num))) ≠ Some "" ∧
          ∀ ev, ev ∈ dispatched (ui (worldInit (num := num))) → evAddress ev ≠ Some "")
    as H0.
  { split; [done|]. intros ev Hev. by apply not_elem_of_nil in Hev. }
  revert H0. generalize (worldInit (num := num)).
  induction ts as [|t ts IH]; intros w Hw; [done|]. simpl. apply IH.
  destruct t as [lat lng|lat lng| | |e]; unfold perform, setMarkerCall.
  - destruct (getAddressFromCoordinates toString lat lng (geo w)) as [g h].
    apply Hawait. cbn [ui]. apply Hdisp. by destruct Hw.
  - destruct (getAddressFromCoordinates toString lat lng (geo w)) as [g h].
    apply Hawait. by destruct Hw.
  - cbn [ui]. unfold handleConfirm. destruct (marker (ui w)) eqn:E.
    + apply Hdisp. done.
    + by destruct Hw.
  - cbn [ui]. split; [done|]. by destruct Hw.
  - cbn [ui]. by apply Hall, Hall.
Qed.

(** X13. A failed lookup is silent.  The slot is free and the point is
    neither cached nor pending: the marker is set there and the fetch fails.
    The [await] in [setMarker] throws, so nothing more is done: the popup of
    the marker still shows the loading text, the element keeps the address it
    had before, and a click on the confirm button sends the new point with
    that earlier address. *)
Theorem X13_failed_lookup_keeps_old_address w lat lng :
  reachable toString (geo w) →
  awaiting w = [] →
  hasExecutedImmediately (geo w) = false →
  cache (geo w) !! cacheKeyOf toString lat lng = None →
  pendingRequests (geo w) !! cacheKeyOf toString lat lng = None →
  marker (ui (performAll toString toFixed6
                [MarkerPlaced lat lng;
                 Geocoder (FetchSettles (length (fetchLog (geo w))) Failed)] w))
    = Some {| position := (lat, lng); popup := LoadingPopup |} ∧
  address (ui (performAll toString toFixed6
                 [MarkerPlaced lat lng;
                  Geocoder (FetchSettles (length (fetchLog (geo w))) Failed)] w))
    = address (ui w) ∧
  awaiting (performAll toString toFixed6
              [MarkerPlaced lat lng;
               Geocoder (FetchSettles (length (fetchLog (geo w))) Failed)] w) = [] ∧
  dispatched (ui (performAll toString toFixed6
                    [MarkerPlaced lat lng;
                     Geocoder (FetchSettles (length (fetchLog (geo w))) Failed);
                     ConfirmClicked] w))
    = dispatched (ui w) ++
      [{| evName := "map-picker-confirm"; evLat := toFixed6 lat;
          evLng := toFixed6 lng; evAddress := orNull (address (ui w)) |}].
Proof.
  intros Hr Haw Hflag Hc Hp.
  pose proof (reachable_consistent toString _ Hr) as C.
  destruct (call_immediate toString lat lng (geo w) Hc Hp Hflag)
    as (_ & Hps1 & Hq1 & _ & Hin1 & _).
  set (g1 := fst (getAddressFromCoordinates toString lat lng (geo w))) in *.
  set (pA := length (promises (geo w))) in *.
  set (fA := {| fid := length (fetchLog (geo w)); flat := lat; flng := lng;
                fcont := AfterImmediate (cacheKeyOf toString lat lng) pA |}) in *.
  assert (findFetch (length (fetchLog (geo w))) (inflight g1) = Some fA) as Hfind.
  { rewrite Hin1. apply (findFetch_snoc _ fA).
    intros x Hx. apply (fid_logged _ _ C) in Hx. simpl. lia. }
  assert (pA ∉ pendingResolvers g1) as HnA.
  { rewrite Hq1. intros Hin.
    apply (queued_pending _ _ C), lookup_lt_Some in Hin. unfold pA in Hin. lia. }
  set (g2 := fetchSettles (length (fetchLog (geo w))) Failed g1).
  assert (promises g2 !! pA = Some Rejected) as H2A.
  { unfold g2, fetchSettles. rewrite Hfind. simpl.
    apply settle_lookup_pending. rewrite Hps1. by apply list_lookup_middle. }
  assert (performAll toString toFixed6
            [MarkerPlaced lat lng;
             Geocoder (FetchSettles (length (fetchLog (geo w))) Failed)] w
          = {| geo := g2; ui := placeMarker lat lng (ui w); awaiting := [] |}) as Hw2.
  { change (performAll toString toFixed6
              [MarkerPlaced lat lng;
               Geocoder (FetchSettles (length (fetchLog (geo w))) Failed)] w)
      with (perform toString toFixed6
              (perform toString toFixed6 w (MarkerPlaced lat lng))
              (Geocoder (FetchSettles (length (fetchLog (geo w))) Failed))).
    rewrite (markerPlaced_immediate w lat lng Hc Hp Hflag). fold g1 pA.
    rewrite Haw, app_nil_l.
    unfold perform. cbn [geo ui awaiting step]. fold g2.
    rewrite (filter_cons_False (λ a, wasQueued g1 a = true) (pA, (lat, lng)))
      by (unfold wasQueued; simpl; by rewrite bool_decide_false).
    rewrite (filter_cons_True (λ a, wasQueued g1 a = false) (pA, (lat, lng)))
      by (unfold wasQueued; simpl; by rewrite bool_decide_false).
    rewrite (filter_cons_False (λ a, stillPending g2 a = true) (pA, (lat, lng)))
      by (unfold stillPending; simpl; by rewrite H2A).
    rewrite !filter_nil. unfold resumeAll. simpl. by rewrite H2A. }
  rewrite Hw2. split; [done|]. split; [done|]. split; [done|].
  change (performAll toString toFixed6
            [MarkerPlaced lat lng;
             Geocoder (FetchSettles (length (fetchLog (geo w))) Failed);
             ConfirmClicked] w)
    with (perform toString toFixed6
            (performAll toString toFixed6
               [MarkerPlaced lat lng;
                Geocoder (FetchSettles (length (fetchLog (geo w))) Failed)] w)
            ConfirmClicked).
  by rewrite Hw2.
Qed.

End PickerProofs.

(** ** The additional theorems at concrete states *)

Local Open Scope Z_scope.

Lemma X1_rate_limit_witness :
  hasExecutedImmediately
    (fst (runFrom showZ (fetchSettles 0 Failed lateAB, [])
            [(1200, Idle); (1500, lookup C); (1899, lookup A)])) = true ∧
  Forall (λ g, isImmediate (fcont g) = false)
    (fetchesSince (fetchSettles 0 Failed lateAB)
       (fst (runFrom showZ (fetchSettles 0 Failed lateAB, [])
               [(1200, Idle); (1500, lookup C); (1899, lookup A)]))).
Proof.
  apply (X1_rate_limit showZ lateAB 0 fetchA (keyOf A) 0 Failed []
           [(1200, Idle); (1500, lookup C); (1899, lookup A)]).
  - exists [call A; Clock 100; call B; Clock 900]. reflexivity.
  - reflexivity.
  - reflexivity.
  - repeat (apply Forall_cons; split; [vm_compute; reflexivity|]). apply Forall_nil_2.
Defined.

Lemma X2_slot_released_witness :
  hasExecutedImmediately (advance showZ (length (timers cooldownA)) 1010 cooldownA)
    = false ∧
  (cache (advance showZ (length (timers cooldownA)) 1010 cooldownA) !! keyOf B = None →
   pendingRequests (advance showZ (length (timers cooldownA)) 1010 cooldownA)
     !! keyOf B = None →
   ∃ g, fetchesSince (advance showZ (length (timers cooldownA)) 1010 cooldownA)
          (fst (getAddressFromCoordinates showZ (fst B) (snd B)
                  (advance showZ (length (timers cooldownA)) 1010 cooldownA))) = [g] ∧
        flat g = fst B ∧ flng g = snd B ∧ isImmediate (fcont g) = true).
Proof.
  apply (X2_slot_released showZ cooldownA
           {| tid := 0; due := 1010; cb := SlotRelease |} 1010 (fst B) (snd B)).
  - exists [call A; Clock 10; FetchSettles 0 (Ok (Some "Smith County, Kansas"));
            Clock 1010]. reflexivity.
  - apply (list_elem_of_lookup_2 _ 0%nat). reflexivity.
  - reflexivity.
  - simpl. lia.
Defined.

Lemma X3_one_debounce_timer_witness :
  (length (filter (λ t, isDebounce t = true) (timers busyAB)) ≤ 1)%nat ∧
  (cache busyAB !! keyOf C = None →
   pendingRequests busyAB !! keyOf C = None →
   hasExecutedImmediately busyAB = true →
   filter (λ t, isDebounce t = true)
     (timers (fst (getAddressFromCoordinates showZ (fst C) (snd C) busyAB)))
   = [{| tid := timerSeq busyAB; due := now busyAB + DEBOUNCE_DELAY; cb := Debounce |}] ∧
   debounceTimer (fst (getAddressFromCoordinates showZ (fst C) (snd C) busyAB))
   = Some (timerSeq busyAB)).
Proof.
  apply (X3_one_debounce_timer showZ busyAB (fst C) (snd C)).
  exists [call A; Clock 100; call B]. reflexivity.
Defined.

Lemma X4_queued_callers_are_attended_witness :
  is_Some (lastArgs busyAB) ∧
  ∃ s' f,
    (s' = busyAB ∨
     ∃ t, t ∈ timers busyAB ∧ cb t = Debounce ∧ s' = timerFires showZ (tid t) busyAB) ∧
    pendingResolvers s' = pendingResolvers busyAB ∧
    f ∈ inflight s' ∧ isImmediate (fcont f) = false ∧
    ∀ r, pendingResolvers (fetchSettles (fid f) r s') = [] ∧
         ∀ w, w ∈ pendingResolvers busyAB →
              ∃ v, outcome (fetchSettles (fid f) r s') (Follows w) = Fulfilled v.
Proof.
  apply (X4_queued_callers_are_attended showZ busyAB).
  - exists [call A; Clock 100; call B]. reflexivity.
  - vm_compute. discriminate.
Defined.

Lemma X6_busy_while_tiles_load_witness :
  loadingTiles (foldl onTileEvent busyInit
                  [TilesLoading; TilesLoading; TilesLoad; TilesLoad])
    = outstanding [TilesLoading; TilesLoading; TilesLoad; TilesLoad] ∧
  0 ≤ outstanding [TilesLoading; TilesLoading; TilesLoad; TilesLoad] ∧
  ariaBusy (foldl onTileEvent busyInit
              [TilesLoading; TilesLoading; TilesLoad; TilesLoad])
    = (if 0 <? outstanding [TilesLoading; TilesLoading; TilesLoad; TilesLoad]
       then Some true else None).
Proof.
  apply (X6_busy_while_tiles_load [TilesLoading; TilesLoading; TilesLoad; TilesLoad]).
  - simpl. lia.
  - discriminate.
Defined.

Lemma X13_failed_lookup_keeps_old_address_witness :
  let w2 := performAll showZ fixed6Z
              [MarkerPlaced (fst A) (snd A);
               Geocoder (FetchSettles (length (fetchLog (geo (worldInit (num := Z)))))
                           Failed)] worldInit in
  let w3 := performAll showZ fixed6Z
              [MarkerPlaced (fst A) (snd A);
               Geocoder (FetchSettles (length (fetchLog (geo (worldInit (num := Z)))))
                           Failed);
               ConfirmClicked] worldInit in
  marker (ui w2) = Some {| position := (fst A, snd A); popup := LoadingPopup |} ∧
  address (ui w2) = address (ui (worldInit (num := Z))) ∧
  awaiting w2 = [] ∧
  dispatched (ui w3)
    = dispatched (ui (worldInit (num := Z))) ++
      [{| evName := "map-picker-confirm"; evLat := fixed6Z (fst A);
          evLng := fixed6Z (snd A);
          evAddress := orNull (address (ui (worldInit (num := Z)))) |}].
Proof.
  intros w2 w3.
  apply (X13_failed_lookup_keeps_old_address showZ fixed6Z worldInit (fst A) (snd A)).
  - exists []. reflexivity.
  - reflexivity.
  - reflexivity.
  - reflexivity.
  - reflexivity.
Defined.

Lemma X11_marker_shows_another_lookup_witness :
  let w3 := performAll showZ fixed6Z
              [MarkerPlaced (fst A) (snd A); MarkerPlaced (fst B) (snd B);
               Geocoder (FetchSettles (length (fetchLog (geo (worldInit (num := Z)))))
                           (Ok None))] worldInit in
  marker (ui w3)
    = Some {| position := (fst B, snd B);
              popup := CoordinatesPopup (fixed6Z (fst A)) (fixed6Z (snd A)) |} ∧
  address (ui w3) = None ∧
  awaiting w3 = [].
Proof.
  intros w3.
  apply (X11_marker_shows_another_lookup showZ fixed6Z worldInit
           (fst A) (snd A) (fst B) (snd B) None).
  - exists []. reflexivity.
  - reflexivity.
  - reflexivity.
  - reflexivity.
  - reflexivity.
  - reflexivity.
  - reflexivity.
  - vm_compute. discriminate.
Defined.
